(** * LeCleac'h horn profile solver ([src/lib/jmlc.ts])

    A shallow embedding of [JmlcHornCalculator]: the area law
    [getTargetArea], the stepping loop of [generateProfile] with its
    bisection solver and its spiral extension, and the coordinate export
    [generateCSV].

    Numbers.  The source computes with JavaScript numbers.  Here a number is
    a real: every operation is exact, and [Math.PI], [Math.sin], [Math.cos],
    [Math.cosh], [Math.sinh], [Math.sqrt] and [Math.pow] are the functions
    they approximate.  The one place where the source can produce a
    non-finite value from finite operands is the division by
    [1 + Math.cos(theta)] in the solver; that quotient is kept with the
    values JavaScript gives it ([jsnum], [js_div], [js_lt]).  Integer
    counters ([i], [spiralStepCount], [index]) are natural numbers.
    Rounding, overflow and non-finite parameters are outside this model.

    [generateProfile] takes its step size as an argument; the source's
    default of 1.0 is the caller's business. *)

From Stdlib Require Import Reals Lra Lia List String Ascii ZArith Bool.
From Stdlib Require Import DecimalString.
Import ListNotations.
Local Open Scope R_scope.
Set Warnings "-abstract-large-number".

(** ** Comparisons and the one division that can hit zero *)

Definition Rltb (a b : R) : bool := if Rlt_dec a b then true else false.
Definition Rleb (a b : R) : bool := if Rle_dec a b then true else false.
Definition Reqb (a b : R) : bool := if Req_dec_T a b then true else false.

(** The value of a JavaScript division of two finite numbers. *)
Inductive jsnum : Type :=
| Finite (r : R)
| PosInfinity
| NegInfinity
| NaN.

(** [a / b] on finite operands: a nonzero number over zero is an infinity,
    zero over zero is NaN. *)
Definition js_div (a b : R) : jsnum :=
  if Req_dec_T b 0 then
    if Rlt_dec 0 a then PosInfinity
    else if Rlt_dec a 0 then NegInfinity
    else NaN
  else Finite (a / b).

(** [a < b] with [b] finite: false for [Infinity] and for [NaN]. *)
Definition js_lt (a : jsnum) (b : R) : bool :=
  match a with
  | Finite r => Rltb r b
  | NegInfinity => true
  | PosInfinity | NaN => false
  end.

(** ** Data *)

Module JmlcParams.
Record t : Type := mk {
  fc : R;          (* cutoff frequency, Hz *)
  T : R;           (* expansion factor *)
  d0 : R;          (* throat diameter, mm *)
  roundOver : R    (* rollback angle limit, degrees *)
}.
End JmlcParams.

Module Point.
Record t : Type := mk {
  index : nat;
  x : R;
  y : R;
  length : R;      (* path length along the wall *)
  radius : R;      (* theoretical expansion radius *)
  angle : R;       (* wall angle, degrees *)
  deltaAngle : R   (* change in angle from the previous point, degrees *)
}.
End Point.

(** The local variables of [generateProfile] that live across iterations. *)
Module State.
Record t : Type := mk {
  l : R;
  x : R;
  y : R;
  previousAngle : R;
  previousDelta : R;
  isSpiraling : bool;
  baseDeltaTheta : R;
  spiralStepCount : nat
}.
End State.

Definition C_SOUND : R := 343200.
Definition MAX_STEPS : nat := 20000.
Definition SPIRAL_DETECTION_THRESHOLD_ANGLE : R := 90.
Definition EPSILON : R := 0.005.
Definition growthRate : R := 1.005.

(** ** The area law *)

Definition getM (p : JmlcParams.t) : R :=
  (4 * PI * JmlcParams.fc p) / C_SOUND.

Definition getTargetArea (p : JmlcParams.t) (l : R) : R :=
  let m := getM p in
  let r0 := JmlcParams.d0 p / 2 in
  let s0 := PI * r0 * r0 in
  let term := (m * l) / 2 in
  let expansionFactor := cosh term + JmlcParams.T p * sinh term in
  s0 * expansionFactor * expansionFactor.

(** ** The physical solver: binary search on the wall angle *)

(** [S_geometry] of the source, for a candidate angle. *)
Definition S_geometry (y stepSize theta : R) : jsnum :=
  let y_candidate := y + stepSize * sin theta in
  js_div (2 * PI * y_candidate * y_candidate) (1 + cos theta).

(** The variables of the search: [minTheta], [maxTheta], [theta]. *)
Module Search.
Record t : Type := mk {
  minTheta : R;
  maxTheta : R;
  theta : R
}.
End Search.

(** One pass of the body of [for (iter ...)]. *)
Definition bisectStep (y stepSize S_target : R) (b : Search.t) : Search.t :=
  let theta := (Search.minTheta b + Search.maxTheta b) / 2 in
  if js_lt (S_geometry y stepSize theta) S_target
  then Search.mk theta (Search.maxTheta b) theta
  else Search.mk (Search.minTheta b) theta theta.

Fixpoint bisect (iters : nat) (y stepSize S_target : R) (b : Search.t)
  : Search.t :=
  match iters with
  | O => b
  | S n => bisect n y stepSize S_target (bisectStep y stepSize S_target b)
  end.

Definition BISECT_ITERS : nat := 50.

Definition searchStart : Search.t := Search.mk 0 (2 * PI) 0.

Definition solveTheta (y stepSize S_target : R) : R :=
  Search.theta (bisect BISECT_ITERS y stepSize S_target searchStart).

(** ** One iteration of the step loop *)

(** Step 2 of the body, "Determine Wall Angle": the angle of this step and
    the spiral variables as the step leaves them. *)
Definition determineAngle (p : JmlcParams.t) (stepSize : R) (st : State.t)
    (S_target : R) : R * State.t :=
  if State.isSpiraling st then
    let spiralStepCount := S (State.spiralStepCount st) in
    let currentDelta :=
      State.baseDeltaTheta st * growthRate ^ spiralStepCount in
    (State.previousAngle st + currentDelta,
     State.mk (State.l st) (State.x st) (State.y st)
       (State.previousAngle st) (State.previousDelta st)
       true (State.baseDeltaTheta st) spiralStepCount)
  else
    let theta := solveTheta (State.y st) stepSize S_target in
    let currentDeg := theta * (180 / PI) in
    let currentDelta := theta - State.previousAngle st in
    let isDecelerating :=
      Rltb currentDelta (State.previousDelta st)
      && Rltb SPIRAL_DETECTION_THRESHOLD_ANGLE currentDeg in
    if isDecelerating && Rltb 100 (JmlcParams.roundOver p) then
      let baseDeltaTheta := State.previousDelta st in
      (State.previousAngle st + baseDeltaTheta,
       State.mk (State.l st) (State.x st) (State.y st)
         (State.previousAngle st) (State.previousDelta st)
         true baseDeltaTheta (State.spiralStepCount st))
    else (theta, st).

(** The body of [for (let i = 0; i < MAX_STEPS; i++)]: [None] is [break],
    [Some (st', pt)] is an iteration that ran to its end, with the variables
    as it leaves them and the point it pushed. *)
Definition step (p : JmlcParams.t) (stepSize : R) (i : nat) (st : State.t)
  : option (State.t * Point.t) :=
  let l_next := State.l st + stepSize in
  let S_target := getTargetArea p l_next in
  let '(theta, st1) := determineAngle p stepSize st S_target in
  let thetaDeg := theta * (180 / PI) in
  let deltaDeg := (theta - State.previousAngle st1) * (180 / PI) in
  let previousDelta :=
    if negb (State.isSpiraling st1)
    then theta - State.previousAngle st1
    else State.previousDelta st1 in
  if Rleb (JmlcParams.roundOver p - EPSILON) thetaDeg then None
  else if State.isSpiraling st1
          && Rleb (State.y st1 + stepSize * sin theta) 0 then None
  else
    let dx := stepSize * cos theta in
    let dy := stepSize * sin theta in
    let x := State.x st1 + dx in
    let y := State.y st1 + dy in
    Some (State.mk l_next x y theta previousDelta
            (State.isSpiraling st1) (State.baseDeltaTheta st1)
            (State.spiralStepCount st1),
          Point.mk (i + 1) x y l_next (sqrt (S_target / PI))
            thetaDeg deltaDeg).

(** The loop, from iteration [i] with [fuel = MAX_STEPS - i] passes left. *)
Fixpoint loop (p : JmlcParams.t) (stepSize : R) (fuel i : nat) (st : State.t)
  : list Point.t :=
  match fuel with
  | O => []
  | S fuel' =>
      match step p stepSize i st with
      | None => []
      | Some (st', pt) => pt :: loop p stepSize fuel' (S i) st'
      end
  end.

Definition initialState (p : JmlcParams.t) : State.t :=
  State.mk 0 0 (JmlcParams.d0 p / 2) 0 0 false 0 0.

Definition initialPoint (p : JmlcParams.t) : Point.t :=
  let y := JmlcParams.d0 p / 2 in
  Point.mk 0 0 y 0 y 0 0.

Definition generateProfile (p : JmlcParams.t) (stepSize : R) : list Point.t :=
  let m := getM p in
  if Reqb m 0 || Rleb (JmlcParams.d0 p) 0 then []
  else initialPoint p :: loop p stepSize MAX_STEPS 0 (initialState p).

(** ** The coordinate export *)

Definition newline : string := String (ascii_of_nat 10) EmptyString.

Fixpoint zeros (k : nat) : string :=
  match k with
  | O => EmptyString
  | S k' => String "0"%char (zeros k')
  end.

(** The decimal digits of a non-negative integer, ["0"] for zero. *)
Definition digitsOf (n : Z) : string :=
  NilZero.string_of_uint (N.to_uint (Z.to_N n)).

(** The digit string of [toFixed], before the decimal point is inserted:
    the digits of [n], left-padded with zeros to [f + 1] characters. *)
Definition padDigits (n : Z) (f : nat) : string :=
  let m := digitsOf n in
  let k := String.length m in
  if (k <=? f)%nat then (zeros (f + 1 - k) ++ m)%string else m.

Section Exporter.

(** [Number::toString], for the magnitudes (from [1e21] on) that
    [toFixed] hands over to it. *)
Variable Number_toString : R -> string.

(** [Number.prototype.toFixed] on a finite number: [n] is the integer
    nearest to [x * 10^f], the larger one on a tie. *)
Definition toFixed (x : R) (f : nat) : string :=
  let s := if Rlt_dec x 0 then "-"%string else ""%string in
  let x := if Rlt_dec x 0 then - x else x in
  if Rle_dec (10 ^ 21) x then (s ++ Number_toString x)%string
  else
    let n := Zfloor (x * 10 ^ f + 1 / 2) in
    let m := padDigits n f in
    let k := String.length m in
    match f with
    | O => (s ++ m)%string
    | _ => (s ++ substring 0 (k - f) m ++ "." ++ substring (k - f) f m)%string
    end.

(** The text appended for one point. *)
Definition csvRow (p : Point.t) : string :=
  (toFixed (Point.x p / 10) 4 ++ "," ++ toFixed (Point.y p / 10) 4
     ++ ",0.0000" ++ newline)%string.

Definition csvHeader : string := ("X (cm),Y (cm),Z (cm)" ++ newline)%string.

Definition generateCSV (points : list Point.t) : string :=
  fold_left (fun csv p => (csv ++ csvRow p)%string) points csvHeader.

End Exporter.

(** ** The run, iteration by iteration *)

(** The variables after [k] iterations that ran to their end, starting at
    iteration [i] from [st]; [None] when one of them stopped the loop. *)
Fixpoint stateFrom (p : JmlcParams.t) (stepSize : R) (k i : nat) (st : State.t)
  : option State.t :=
  match k with
  | O => Some st
  | S k' =>
      match step p stepSize i st with
      | None => None
      | Some (st', _) => stateFrom p stepSize k' (S i) st'
      end
  end.

Definition stateAfter (p : JmlcParams.t) (stepSize : R) (k : nat)
  : option State.t :=
  stateFrom p stepSize k 0 (initialState p).

(** The target area and the wall angle of the iteration that starts in [st]. *)
Definition targetOf (p : JmlcParams.t) (stepSize : R) (st : State.t) : R :=
  getTargetArea p (State.l st + stepSize).

Definition thetaOf (p : JmlcParams.t) (stepSize : R) (st : State.t) : R :=
  fst (determineAngle p stepSize st (targetOf p stepSize st)).

(** The spiral flag as the iteration that starts in [st] sets it. *)
Definition spiralOf (p : JmlcParams.t) (stepSize : R) (st : State.t) : bool :=
  State.isSpiraling
    (snd (determineAngle p stepSize st (targetOf p stepSize st))).

(** The area law as the specification writes it. *)
Definition specM (fc : R) : R := 4 * PI * fc / 343200.

Definition specArea (p : JmlcParams.t) (l : R) : R :=
  let m := specM (JmlcParams.fc p) in
  PI * (JmlcParams.d0 p / 2) ^ 2
  * (cosh (m * l / 2) + JmlcParams.T p * sinh (m * l / 2)) ^ 2.

(** The equation the solver searches a root of, cleared of its denominator:
    [2 PI (y + stepSize sin theta)^2 - S_target (1 + cos theta)]. *)
Definition areaGap (y stepSize S_target theta : R) : R :=
  2 * PI * (y + stepSize * sin theta) * (y + stepSize * sin theta)
  - S_target * (1 + cos theta).

(** ** Notions used to state the properties *)

(** The variables an iteration leaves behind when it runs to its end. *)
Definition nextState (p : JmlcParams.t) (stepSize : R) (st : State.t)
  : State.t :=
  let theta := thetaOf p stepSize st in
  let st1 := snd (determineAngle p stepSize st (targetOf p stepSize st)) in
  State.mk (State.l st + stepSize)
    (State.x st + stepSize * cos theta)
    (State.y st + stepSize * sin theta)
    theta
    (if State.isSpiraling st1 then State.previousDelta st
     else theta - State.previousAngle st)
    (State.isSpiraling st1) (State.baseDeltaTheta st1)
    (State.spiralStepCount st1).

(** The point an iteration pushes when it runs to its end. *)
Definition nextPoint (p : JmlcParams.t) (stepSize : R) (i : nat)
    (st : State.t) : Point.t :=
  let theta := thetaOf p stepSize st in
  Point.mk (i + 1)
    (State.x st + stepSize * cos theta)
    (State.y st + stepSize * sin theta)
    (State.l st + stepSize)
    (sqrt (targetOf p stepSize st / PI))
    (theta * (180 / PI))
    ((theta - State.previousAngle st) * (180 / PI)).

(** The two stop conditions of an iteration. *)
Definition stops (p : JmlcParams.t) (stepSize : R) (st : State.t) : Prop :=
  JmlcParams.roundOver p - EPSILON <= thetaOf p stepSize st * (180 / PI)
  \/ (spiralOf p stepSize st = true
      /\ State.y st + stepSize * sin (thetaOf p stepSize st) <= 0).

(** The guard at the head of [generateProfile]. *)
Definition degenerate (p : JmlcParams.t) : bool :=
  Reqb (getM p) 0 || Rleb (JmlcParams.d0 p) 0.

(** The parameters of the end-to-end example of the specification: 340 Hz,
    T = 1, a 36 mm throat, rollback to 180 degrees. *)
Definition exampleParams : JmlcParams.t := JmlcParams.mk 340 1 36 180.

(** The variables after [k] iterations agree with the [k]-th point. *)
Definition agrees (k : nat) (st : State.t) (pt : Point.t) : Prop :=
  Point.index pt = k
  /\ Point.x pt = State.x st
  /\ Point.y pt = State.y st
  /\ Point.length pt = State.l st
  /\ Point.angle pt = State.previousAngle st * (180 / PI).

(** The spiral example of the specification: the same horn, rollback to
    360 degrees. *)
Definition spiralParams : JmlcParams.t := JmlcParams.mk 340 1 36 360.

(** The test that moves the solver into the spiral regime. *)
Definition transitionTest (p : JmlcParams.t) (stepSize : R) (st : State.t)
  : bool :=
  let theta := solveTheta (State.y st) stepSize (targetOf p stepSize st) in
  (Rltb (theta - State.previousAngle st) (State.previousDelta st)
   && Rltb SPIRAL_DETECTION_THRESHOLD_ANGLE (theta * (180 / PI)))
  && Rltb 100 (JmlcParams.roundOver p).

(** A horn steep enough for the solved angle to pass 90 degrees at once:
    34.32 kHz, T = 1, a 40 mm throat, rollback to 720 degrees; stepped by
    1 mm, its second iteration makes the transition. *)
Definition steepParams : JmlcParams.t := JmlcParams.mk 34320 1 40 720.

(** The variables of the steep horn after its first and its second
    iteration. *)
Definition steepState1 : State.t :=
  nextState steepParams 1 (initialState steepParams).

Definition steepState2 : State.t := nextState steepParams 1 steepState1.



(** The rows of the export, one after the other. *)
Fixpoint flatten (rows : list string) : string :=
  match rows with
  | [] => EmptyString
  | r :: rows' => (r ++ flatten rows')%string
  end.

(** ** The diagnostic log export *)

(** [a || 1] on a finite number: [1] when [a] is zero. *)
Definition orOne (a : R) : R := if Req_dec_T a 0 then 1 else a.

(** The "Growth" figure of a log row. *)
Definition growthOf (p : Point.t) : R :=
  (Point.deltaAngle p / orOne (Point.angle p - Point.deltaAngle p)) * 100.

(** A non-negative integer printed in a template string. *)
Definition indexText (n : nat) : string :=
  NilZero.string_of_uint (Nat.to_uint n).

Section LogExporter.

Variable Number_toString : R -> string.

(** The text appended for one point. *)
Definition logRow (p : Point.t) : string :=
  let growth := growthOf p in
  (indexText (Point.index p) ++ ","
     ++ toFixed Number_toString (Point.length p) 2 ++ ","
     ++ toFixed Number_toString (Point.y p) 2 ++ ","
     ++ toFixed Number_toString (Point.angle p) 3 ++ ","
     ++ toFixed Number_toString (Point.deltaAngle p) 4 ++ ","
     ++ toFixed Number_toString growth 4 ++ newline)%string.

Definition logHeader : string :=
  ("Index,Length (mm),Radius (mm),Angle (deg),Delta Angle (deg),Growth (%)"
     ++ newline)%string.

Definition generateLog (points : list Point.t) : string :=
  fold_left (fun csv p => (csv ++ logRow p)%string) points logHeader.

End LogExporter.

(** ** The derived data of the page ([App], the [useMemo] callback)

    The callback computes, from the points of [generateProfile(0.5)], the
    bounding box and the key dimensions, the downsampled series of the two
    charts, and the axis domains.  Array lengths and indices are natural
    numbers; [Math.ceil(n / d)] on two of them is the rounded-up quotient. *)

(** [>] between a quotient and a finite number: false for [NaN]. *)
Definition js_gt (a : jsnum) (b : R) : bool :=
  match a with
  | Finite r => Rltb b r
  | PosInfinity => true
  | NegInfinity | NaN => false
  end.

Module Bounds.
Record t : Type := mk {
  minX : R;
  maxX : R;
  maxY : R
}.
End Bounds.

(** One pass of [for (const p of calculatedPoints)]. *)
Definition growBounds (b : Bounds.t) (p : Point.t) : Bounds.t :=
  Bounds.mk
    (if Rltb (Point.x p) (Bounds.minX b) then Point.x p else Bounds.minX b)
    (if Rltb (Bounds.maxX b) (Point.x p) then Point.x p else Bounds.maxX b)
    (if Rltb (Bounds.maxY b) (Point.y p) then Point.y p else Bounds.maxY b).

Definition boundingBox (calculatedPoints : list Point.t) : Bounds.t :=
  match calculatedPoints with
  | [] => Bounds.mk 0 0 0
  | p0 :: _ =>
      fold_left growBounds calculatedPoints
        (Bounds.mk (Point.x p0) (Point.x p0) (Point.y p0))
  end.

(** [calculatedPoints[calculatedPoints.length - 1]], undefined on the empty
    array. *)
Definition lastPoint (calculatedPoints : list Point.t) : option Point.t :=
  match calculatedPoints with
  | [] => None
  | p0 :: _ => Some (last calculatedPoints p0)
  end.

Definition mouthDiameter (calculatedPoints : list Point.t) : R :=
  match lastPoint calculatedPoints with
  | Some p => Point.y p * 2
  | None => 0
  end.

Definition physicalDepth (calculatedPoints : list Point.t) : R :=
  Bounds.maxX (boundingBox calculatedPoints).

(** [array.filter((_, index) => keep(index))], from position [index] on. *)
Fixpoint filterIndex {A : Type} (keep : nat -> bool) (index : nat)
    (l : list A) : list A :=
  match l with
  | [] => []
  | a :: l' =>
      if keep index then a :: filterIndex keep (S index) l'
      else filterIndex keep (S index) l'
  end.

(** [Math.ceil(n / d) || 1]. *)
Definition ceilOrOne (n d : nat) : nat :=
  match ((n + d - 1) / d)%nat with
  | O => 1%nat
  | c => c
  end.

Definition PRESERVED_TAIL_POINTS : nat := 200.
Definition targetBodyPoints : nat := 300.

(** The series of the profile chart before the mirror column is added. *)
Definition chartPoints (calculatedPoints : list Point.t) : list Point.t :=
  let totalPoints := List.length calculatedPoints in
  if (totalPoints <=? PRESERVED_TAIL_POINTS + targetBodyPoints)%nat
  then calculatedPoints
  else
    let bodyPoints :=
      firstn (totalPoints - PRESERVED_TAIL_POINTS) calculatedPoints in
    let tailPoints :=
      skipn (totalPoints - PRESERVED_TAIL_POINTS) calculatedPoints in
    let bodyStep := ceilOrOne (List.length bodyPoints) targetBodyPoints in
    let downsampledBody :=
      filterIndex (fun index => (index mod bodyStep =? 0)%nat) 0 bodyPoints in
    downsampledBody ++ tailPoints.

(** A point of the profile chart: the point and its mirror ordinate. *)
Module ChartPoint.
Record t : Type := mk {
  point : Point.t;
  negY : R
}.
End ChartPoint.

Definition chartData (calculatedPoints : list Point.t) : list ChartPoint.t :=
  map (fun p => ChartPoint.mk p (- Point.y p)) (chartPoints calculatedPoints).

(** The series of the radial chart. *)
Definition spiralData (calculatedPoints : list Point.t) : list Point.t :=
  let totalPoints := List.length calculatedPoints in
  let spiralStep := ceilOrOne totalPoints 1000 in
  filterIndex
    (fun index =>
       (index mod spiralStep =? 0)%nat || (index =? totalPoints - 1)%nat)
    0 calculatedPoints.

Definition CHART_ASPECT : R := 2.0.

(** The axis domains: [xDomain] and [yDomain], each as its two ends. *)
Module Domains.
Record t : Type := mk {
  xLow : R;
  xHigh : R;
  yLow : R;
  yHigh : R
}.
End Domains.

Definition domains (b : Bounds.t) : Domains.t :=
  let dataWidth := Bounds.maxX b - Bounds.minX b in
  let dataHeight := Bounds.maxY b * 2 in
  let centerX := (Bounds.minX b + Bounds.maxX b) / 2 in
  let dataAspect := js_div dataWidth dataHeight in
  let renderWidth :=
    if js_gt dataAspect CHART_ASPECT then dataWidth
    else dataHeight * CHART_ASPECT in
  let renderHeight :=
    if js_gt dataAspect CHART_ASPECT then dataWidth / CHART_ASPECT
    else dataHeight in
  let renderWidth := renderWidth * 1.1 in
  let renderHeight := renderHeight * 1.1 in
  Domains.mk (centerX - renderWidth / 2) (centerX + renderWidth / 2)
    (- renderHeight / 2) (renderHeight / 2).

(** The example horn with the rollback limit at 100 degrees, the largest
    value that keeps the solver in the physical regime. *)
Definition gentleParams : JmlcParams.t := JmlcParams.mk 340 1 36 100.

(** The rounded-up quotient. *)
Definition ceilDiv (n d : nat) : nat := ((n + d - 1) / d)%nat.

(** * Proofs *)

(** ** Comparisons *)

Lemma Rltb_true (a b : R) : Rltb a b = true <-> a < b.
Proof. unfold Rltb; destruct (Rlt_dec a b); split; intros; try easy. Qed.

Lemma Rltb_false (a b : R) : Rltb a b = false <-> b <= a.
Proof.
  unfold Rltb; destruct (Rlt_dec a b); split; intros; try easy; lra.
Qed.

Lemma Rleb_true (a b : R) : Rleb a b = true <-> a <= b.
Proof. unfold Rleb; destruct (Rle_dec a b); split; intros; try easy. Qed.

Lemma Rleb_false (a b : R) : Rleb a b = false <-> b < a.
Proof.
  unfold Rleb; destruct (Rle_dec a b); split; intros; try easy; lra.
Qed.

Lemma Reqb_true (a b : R) : Reqb a b = true <-> a = b.
Proof. unfold Reqb; destruct (Req_dec_T a b); split; intros; try easy. Qed.

Lemma Reqb_false (a b : R) : Reqb a b = false <-> a <> b.
Proof. unfold Reqb; destruct (Req_dec_T a b); split; intros; try easy. Qed.

(** The comparison of the solver, in terms of the cleared equation: the
    geometry area is below the target exactly when [areaGap] is negative.
    At [1 + cos theta = 0] the quotient is [Infinity] or [NaN], the
    comparison is false, and [areaGap] is a non-negative square. *)
Lemma js_lt_S_geometry (y stepSize S_target theta : R) :
  js_lt (S_geometry y stepSize theta) S_target = true
  <-> areaGap y stepSize S_target theta < 0.
Proof.
  unfold S_geometry, js_div, areaGap.
  set (yc := y + stepSize * sin theta).
  assert (Hsq : 0 <= 2 * PI * yc * yc).
  { pose proof PI_RGT_0. nra. }
  pose proof (COS_bound theta) as [Hc _].
  destruct (Req_dec_T (1 + cos theta) 0) as [Hz | Hnz].
  - rewrite Hz, Rmult_0_r.
    destruct (Rlt_dec 0 (2 * PI * yc * yc)); [simpl; split; [easy | lra] |].
    destruct (Rlt_dec (2 * PI * yc * yc) 0); [lra |].
    simpl; split; [easy | lra].
  - simpl. rewrite Rltb_true.
    assert (Hpos : 0 < 1 + cos theta) by lra.
    split; intros H.
    + apply (Rmult_lt_compat_r (1 + cos theta)) in H; [| exact Hpos].
      unfold Rdiv in H. rewrite Rmult_assoc, Rinv_l, Rmult_1_r in H by lra. lra.
    + apply (Rmult_lt_reg_r (1 + cos theta)); [exact Hpos |].
      unfold Rdiv. rewrite Rmult_assoc, Rinv_l, Rmult_1_r by lra. lra.
Qed.

Lemma js_lt_S_geometry_false (y stepSize S_target theta : R) :
  js_lt (S_geometry y stepSize theta) S_target = false
  <-> 0 <= areaGap y stepSize S_target theta.
Proof.
  pose proof (js_lt_S_geometry y stepSize S_target theta) as H.
  destruct (js_lt (S_geometry y stepSize theta) S_target); split; intros H1;
    try easy.
  - assert (areaGap y stepSize S_target theta < 0) by (apply H; reflexivity).
    lra.
  - destruct (Rlt_dec (areaGap y stepSize S_target theta) 0) as [Hl | Hl];
      [apply H in Hl; discriminate | lra].
Qed.

(** ** The binary search *)


(** At [theta = PI] the denominator vanishes and the test fails: the first
    pass always lowers the upper bound. *)
Lemma areaGap_PI (y stepSize S_target : R) :
  0 <= areaGap y stepSize S_target PI.
Proof.
  unfold areaGap. rewrite cos_PI, sin_PI. pose proof PI_RGT_0. nra.
Qed.

Lemma bisectStep_theta (y stepSize S_target : R) (b : Search.t) :
  Search.theta (bisectStep y stepSize S_target b)
  = (Search.minTheta b + Search.maxTheta b) / 2.
Proof.
  unfold bisectStep.
  destruct (js_lt _ _); reflexivity.
Qed.

(** One pass halves the interval, keeps it inside the old one, and leaves
    [theta] on the end it has just moved. *)
Lemma bisectStep_interval (y stepSize S_target : R) (b : Search.t) :
  Search.minTheta b < Search.maxTheta b ->
  let b' := bisectStep y stepSize S_target b in
  Search.minTheta b <= Search.minTheta b'
  /\ Search.minTheta b' < Search.maxTheta b'
  /\ Search.maxTheta b' <= Search.maxTheta b
  /\ Search.maxTheta b' - Search.minTheta b'
     = (Search.maxTheta b - Search.minTheta b) / 2
  /\ Search.minTheta b < Search.theta b' < Search.maxTheta b.
Proof.
  intros Hlt. unfold bisectStep.
  destruct (js_lt _ _); simpl; repeat split; lra.
Qed.

(** The ends of the interval after a pass: the one that moved is [theta],
    and it moved according to the sign of the area gap there. *)
Lemma bisectStep_moved (y stepSize S_target : R) (b : Search.t) :
  let b' := bisectStep y stepSize S_target b in
  (Search.theta b' = Search.minTheta b'
   /\ Search.maxTheta b' = Search.maxTheta b
   /\ areaGap y stepSize S_target (Search.theta b') < 0)
  \/ (Search.theta b' = Search.maxTheta b'
      /\ Search.minTheta b' = Search.minTheta b
      /\ 0 <= areaGap y stepSize S_target (Search.theta b')).
Proof.
  unfold bisectStep.
  destruct (js_lt _ _) eqn:E; simpl.
  - left. repeat split. now apply js_lt_S_geometry.
  - right. repeat split. now apply js_lt_S_geometry_false.
Qed.

Lemma bisect_S (n : nat) (y stepSize S_target : R) (b : Search.t) :
  bisect (S n) y stepSize S_target b
  = bisectStep y stepSize S_target (bisect n y stepSize S_target b).
Proof.
  revert b. induction n as [| n IH]; intros b; [reflexivity |].
  change (bisect (S (S n)) y stepSize S_target b)
    with (bisect (S n) y stepSize S_target (bisectStep y stepSize S_target b)).
  rewrite IH. reflexivity.
Qed.

Lemma bisect_interval (n : nat) (y stepSize S_target : R) (b : Search.t) :
  Search.minTheta b < Search.maxTheta b ->
  let b' := bisect n y stepSize S_target b in
  Search.minTheta b <= Search.minTheta b'
  /\ Search.minTheta b' < Search.maxTheta b'
  /\ Search.maxTheta b' <= Search.maxTheta b
  /\ Search.maxTheta b' - Search.minTheta b'
     = (Search.maxTheta b - Search.minTheta b) / 2 ^ n.
Proof.
  revert b. induction n as [| n IH]; intros b Hlt.
  - simpl. repeat split; lra.
  - cbn zeta. rewrite bisect_S.
    destruct (IH b Hlt) as (H1 & H2 & H3 & H4).
    destruct (bisectStep_interval y stepSize S_target _ H2)
      as (K1 & K2 & K3 & K4 & _).
    repeat split; try lra.
    rewrite K4, H4. simpl. field. apply pow_nonzero. lra.
Qed.

(** After at least one pass [theta] lies strictly inside the starting
    interval and is an end of the current one. *)
Lemma bisect_theta_inside (n : nat) (y stepSize S_target : R) (b : Search.t) :
  Search.minTheta b < Search.maxTheta b ->
  let b' := bisect (S n) y stepSize S_target b in
  Search.minTheta b < Search.theta b' < Search.maxTheta b
  /\ (Search.theta b' = Search.minTheta b'
      \/ Search.theta b' = Search.maxTheta b').
Proof.
  intros Hlt. cbn zeta. rewrite bisect_S.
  destruct (bisect_interval n y stepSize S_target b Hlt) as (H1 & H2 & H3 & _).
  destruct (bisectStep_interval y stepSize S_target _ H2)
    as (_ & _ & _ & _ & K).
  split; [lra |].
  destruct (bisectStep_moved y stepSize S_target
              (bisect n y stepSize S_target b)) as [(E & _) | (E & _)];
    [left | right]; exact E.
Qed.


(** The first of the 50 passes tests [theta = PI] and lowers the upper
    bound to it. *)
Lemma bisectStep_start (y stepSize S_target : R) :
  bisectStep y stepSize S_target searchStart = Search.mk 0 PI PI.
Proof.
  unfold bisectStep, searchStart; simpl.
  replace ((0 + 2 * PI) / 2) with PI by lra.
  rewrite (proj2 (js_lt_S_geometry_false y stepSize S_target PI)
             (areaGap_PI y stepSize S_target)).
  reflexivity.
Qed.

Lemma solveTheta_unfold (y stepSize S_target : R) :
  solveTheta y stepSize S_target
  = Search.theta (bisect 49 y stepSize S_target (Search.mk 0 PI PI)).
Proof.
  unfold solveTheta, BISECT_ITERS.
  change (bisect 50 y stepSize S_target searchStart)
    with (bisect 49 y stepSize S_target
            (bisectStep y stepSize S_target searchStart)).
  rewrite bisectStep_start. reflexivity.
Qed.

(** The solved angle lies strictly between 0 and [PI]. *)
Lemma solveTheta_range (y stepSize S_target : R) :
  0 < solveTheta y stepSize S_target < PI.
Proof.
  rewrite solveTheta_unfold.
  assert (Hlt : Search.minTheta (Search.mk 0 PI PI)
                < Search.maxTheta (Search.mk 0 PI PI)).
  { simpl. apply PI_RGT_0. }
  destruct (bisect_theta_inside 48 y stepSize S_target _ Hlt) as (H & _).
  exact H.
Qed.

(** ** One iteration *)

Lemma rad_to_deg_pos : 0 < 180 / PI.
Proof. apply Rdiv_lt_0_compat; [lra | apply PI_RGT_0]. Qed.

(** [determineAngle] touches the spiral variables only. *)
Lemma determineAngle_frame (p : JmlcParams.t) (stepSize : R) (st : State.t)
    (S_target : R) :
  let st1 := snd (determineAngle p stepSize st S_target) in
  State.l st1 = State.l st /\ State.x st1 = State.x st
  /\ State.y st1 = State.y st
  /\ State.previousAngle st1 = State.previousAngle st
  /\ State.previousDelta st1 = State.previousDelta st.
Proof.
  unfold determineAngle.
  destruct (State.isSpiraling st); simpl; [easy |].
  destruct (_ && _); simpl; easy.
Qed.

Lemma step_cases (p : JmlcParams.t) (stepSize : R) (i : nat) (st : State.t) :
  (step p stepSize i st = None /\ stops p stepSize st)
  \/ (step p stepSize i st
      = Some (nextState p stepSize st, nextPoint p stepSize i st)
      /\ thetaOf p stepSize st * (180 / PI) < JmlcParams.roundOver p - EPSILON
      /\ (spiralOf p stepSize st = true ->
          0 < State.y st + stepSize * sin (thetaOf p stepSize st))).
Proof.
  unfold step, stops, nextState, nextPoint, thetaOf, spiralOf, targetOf.
  pose proof (determineAngle_frame p stepSize st
                (getTargetArea p (State.l st + stepSize))) as F.
  cbn zeta in F.
  destruct (determineAngle p stepSize st
              (getTargetArea p (State.l st + stepSize))) as [theta st1].
  simpl in F |- *. destruct F as (Fl & Fx & Fy & Fa & Fd).
  rewrite ?Fl, ?Fx, ?Fy, ?Fa, ?Fd.
  destruct (Rleb (JmlcParams.roundOver p - EPSILON) (theta * (180 / PI)))
    eqn:Ea.
  - left. split; [reflexivity |]. left. now apply Rleb_true.
  - apply Rleb_false in Ea.
    destruct (State.isSpiraling st1) eqn:Es; simpl.
    + destruct (Rleb (State.y st + stepSize * sin theta) 0) eqn:Eb.
      * left. split; [reflexivity |]. right. split; [reflexivity |].
        now apply Rleb_true.
      * right. apply Rleb_false in Eb. repeat split; auto.
    + right. repeat split; auto. discriminate.
Qed.

Lemma step_Some (p : JmlcParams.t) (stepSize : R) (i : nat)
    (st st' : State.t) (pt : Point.t) :
  step p stepSize i st = Some (st', pt) ->
  st' = nextState p stepSize st /\ pt = nextPoint p stepSize i st
  /\ thetaOf p stepSize st * (180 / PI) < JmlcParams.roundOver p - EPSILON
  /\ (spiralOf p stepSize st = true ->
      0 < State.y st + stepSize * sin (thetaOf p stepSize st)).
Proof.
  intros H.
  destruct (step_cases p stepSize i st) as [(E & _) | (E & Ha & Hy)];
    rewrite E in H; [discriminate |].
  injection H as <- <-. auto.
Qed.

Lemma step_None (p : JmlcParams.t) (stepSize : R) (i : nat) (st : State.t) :
  step p stepSize i st = None <-> stops p stepSize st.
Proof.
  destruct (step_cases p stepSize i st) as [(E & Hs) | (E & Ha & Hy)].
  - split; auto.
  - rewrite E. split; [discriminate |].
    intros [Hs | (Hs & Hn)]; [lra | specialize (Hy Hs); lra].
Qed.

(** Whether an iteration stops does not depend on its number. *)
Lemma step_index (p : JmlcParams.t) (stepSize : R) (i j : nat) (st : State.t) :
  option_map fst (step p stepSize i st) = option_map fst (step p stepSize j st).
Proof.
  destruct (step_cases p stepSize i st) as [(E & Hs) | (E & _)].
  - rewrite E. apply (step_None p stepSize j) in Hs. rewrite Hs. reflexivity.
  - rewrite E.
    destruct (step_cases p stepSize j st) as [(E' & Hs) | (E' & _)].
    + apply (step_None p stepSize i) in Hs. congruence.
    + rewrite E'. reflexivity.
Qed.

(** ** The run *)

Lemma loop_length (p : JmlcParams.t) (stepSize : R) (fuel i : nat)
    (st : State.t) :
  (List.length (loop p stepSize fuel i st) <= fuel)%nat.
Proof.
  revert i st. induction fuel as [| fuel IH]; intros i st; simpl; [lia |].
  destruct (step p stepSize i st) as [[st' pt] |]; simpl; [| lia].
  specialize (IH (S i) st'). lia.
Qed.

Lemma loop_stop (p : JmlcParams.t) (stepSize : R) (fuel i : nat)
    (st : State.t) :
  step p stepSize i st = None -> loop p stepSize fuel i st = [].
Proof.
  intros H. destruct fuel; simpl; [| rewrite H]; reflexivity.
Qed.

(** The [k]-th point of the loop is the one pushed by the iteration that
    starts in the state reached after [k] full iterations. *)
Lemma loop_nth (p : JmlcParams.t) (stepSize : R) (fuel i k : nat)
    (st : State.t) (pt : Point.t) :
  nth_error (loop p stepSize fuel i st) k = Some pt
  <-> (k < fuel)%nat
      /\ exists stk st',
           stateFrom p stepSize k i st = Some stk
           /\ step p stepSize (i + k) stk = Some (st', pt).
Proof.
  revert i k st. induction fuel as [| fuel IH]; intros i k st; simpl.
  - split; [destruct k; discriminate | intros (H & _); lia].
  - destruct k as [| k]; simpl.
    + rewrite Nat.add_0_r.
      destruct (step p stepSize i st) as [[st1 pt1] |] eqn:E; simpl.
      * split.
        -- intros H; injection H as <-. split; [lia |].
           exists st, st1. auto.
        -- intros (_ & stk & st' & H1 & H2). injection H1 as <-.
           congruence.
      * split; [discriminate |].
        intros (_ & stk & st' & H1 & H2). injection H1 as <-. congruence.
    + destruct (step p stepSize i st) as [[st1 pt1] |] eqn:E; simpl.
      * rewrite IH. replace (S i + k)%nat with (i + S k)%nat by lia.
        split; intros (H & R); (split; [lia | exact R]).
      * split; [discriminate |].
        intros (_ & stk & st' & H1 & _). discriminate.
Qed.

Lemma stateFrom_add (p : JmlcParams.t) (stepSize : R) (j k i : nat)
    (st : State.t) :
  stateFrom p stepSize (j + k) i st
  = match stateFrom p stepSize j i st with
    | Some stj => stateFrom p stepSize k (i + j) stj
    | None => None
    end.
Proof.
  revert i st. induction j as [| j IH]; intros i st; simpl.
  - rewrite Nat.add_0_r. reflexivity.
  - destruct (step p stepSize i st) as [[st1 pt1] |]; [| reflexivity].
    rewrite IH. replace (S i + j)%nat with (i + S j)%nat by lia. reflexivity.
Qed.

Lemma stateFrom_S (p : JmlcParams.t) (stepSize : R) (k i : nat)
    (st : State.t) :
  stateFrom p stepSize (S k) i st
  = match stateFrom p stepSize k i st with
    | Some stk => option_map fst (step p stepSize (i + k) stk)
    | None => None
    end.
Proof.
  replace (S k) with (k + 1)%nat by lia. rewrite stateFrom_add.
  destruct (stateFrom p stepSize k i st) as [stk |]; [| reflexivity].
  simpl. destruct (step p stepSize (i + k) stk) as [[s1 p1] |]; reflexivity.
Qed.

Lemma generateProfile_degenerate (p : JmlcParams.t) (stepSize : R) :
  degenerate p = true -> generateProfile p stepSize = [].
Proof.
  unfold generateProfile, degenerate. cbn zeta. intros ->. reflexivity.
Qed.

Lemma generateProfile_regular (p : JmlcParams.t) (stepSize : R) :
  degenerate p = false ->
  generateProfile p stepSize
  = initialPoint p :: loop p stepSize MAX_STEPS 0 (initialState p).
Proof.
  unfold generateProfile, degenerate. cbn zeta. intros ->. reflexivity.
Qed.

Lemma degenerate_false (p : JmlcParams.t) :
  degenerate p = false <-> getM p <> 0 /\ 0 < JmlcParams.d0 p.
Proof.
  unfold degenerate. rewrite orb_false_iff, Reqb_false, Rleb_false. tauto.
Qed.

Lemma degenerate_true (p : JmlcParams.t) :
  degenerate p = true <-> getM p = 0 \/ JmlcParams.d0 p <= 0.
Proof.
  unfold degenerate. rewrite orb_true_iff, Reqb_true, Rleb_true. tauto.
Qed.

(** A point past the seed is the point of an iteration of the run. *)
Lemma generateProfile_nth (p : JmlcParams.t) (stepSize : R) (k : nat)
    (pt : Point.t) :
  nth_error (generateProfile p stepSize) (S k) = Some pt
  <-> degenerate p = false /\ (k < MAX_STEPS)%nat
      /\ exists st st',
           stateAfter p stepSize k = Some st
           /\ step p stepSize k st = Some (st', pt).
Proof.
  destruct (degenerate p) eqn:D.
  - rewrite generateProfile_degenerate by exact D. cbn [nth_error].
    split; [discriminate | intros (H & _); discriminate].
  - rewrite generateProfile_regular by exact D. cbn [nth_error].
    rewrite loop_nth. unfold stateAfter. rewrite Nat.add_0_l. tauto.
Qed.

(** ** The first iteration *)

Lemma determineAngle_initial (p : JmlcParams.t) (stepSize S_target : R) :
  determineAngle p stepSize (initialState p) S_target
  = (solveTheta (JmlcParams.d0 p / 2) stepSize S_target, initialState p).
Proof.
  unfold determineAngle. simpl.
  pose proof (solveTheta_range (JmlcParams.d0 p / 2) stepSize S_target) as Hr.
  replace (Rltb (solveTheta (JmlcParams.d0 p / 2) stepSize S_target - 0) 0)
    with false; [reflexivity |].
  symmetry. apply Rltb_false. lra.
Qed.

Lemma thetaOf_initial (p : JmlcParams.t) (stepSize : R) :
  thetaOf p stepSize (initialState p)
  = solveTheta (JmlcParams.d0 p / 2) stepSize
      (getTargetArea p (0 + stepSize)).
Proof.
  unfold thetaOf, targetOf. rewrite determineAngle_initial. reflexivity.
Qed.

Lemma spiralOf_initial (p : JmlcParams.t) (stepSize : R) :
  spiralOf p stepSize (initialState p) = false.
Proof.
  unfold spiralOf, targetOf. rewrite determineAngle_initial. reflexivity.
Qed.

Lemma MAX_STEPS_Z : Z.of_nat MAX_STEPS = 20000%Z.
Proof. vm_compute. reflexivity. Qed.

Lemma getM_zero (p : JmlcParams.t) : getM p = 0 <-> JmlcParams.fc p = 0.
Proof.
  unfold getM, C_SOUND. pose proof PI_RGT_0 as HPI.
  split; intros H.
  - assert (E : 4 * PI * JmlcParams.fc p = 0).
    { apply (Rmult_eq_reg_r (/ 343200)); [| apply Rinv_neq_0_compat; lra].
      rewrite Rmult_0_l. exact H. }
    assert (K : PI * JmlcParams.fc p = 0) by lra.
    apply Rmult_integral in K. destruct K; [lra | assumption].
  - rewrite H. unfold Rdiv. rewrite Rmult_0_r, Rmult_0_l. reflexivity.
Qed.

Lemma exampleParams_regular :
  getM exampleParams <> 0 /\ 0 < JmlcParams.d0 exampleParams.
Proof.
  split; [| simpl; lra].
  intros H. apply getM_zero in H. simpl in H. lra.
Qed.

(** ** The guard, the seed and the step cap *)

(** C6. [generateProfile] is a total function and its step loop makes at
    most 20000 passes: the result has at most 20001 points, the seed and one
    per pass. *)
Theorem generateProfile_length_bound (p : JmlcParams.t) (stepSize : R) :
  (Z.of_nat (List.length (generateProfile p stepSize)) <= 20001)%Z
  /\ forall (i : nat) (st : State.t),
       (Z.of_nat (List.length (loop p stepSize MAX_STEPS i st)) <= 20000)%Z.
Proof.
  assert (L : forall i st,
             (Z.of_nat (List.length (loop p stepSize MAX_STEPS i st))
              <= 20000)%Z).
  { intros i st. pose proof (loop_length p stepSize MAX_STEPS i st) as H.
    pose proof MAX_STEPS_Z. lia. }
  split; [| exact L].
  destruct (degenerate p) eqn:D.
  - rewrite generateProfile_degenerate by exact D. simpl. lia.
  - rewrite generateProfile_regular by exact D.
    cbn [List.length]. specialize (L 0%nat (initialState p)). lia.
Qed.

(** C7, as the code has it.  The result is empty exactly when [m = 0] or
    [d0 <= 0], and [m = 0] means a cutoff of exactly zero: a negative cutoff
    gives a negative [m] and a profile with at least its seed. *)
Theorem generateProfile_empty_iff (p : JmlcParams.t) (stepSize : R) :
  (generateProfile p stepSize = []
   <-> getM p = 0 \/ JmlcParams.d0 p <= 0)
  /\ (getM p = 0 <-> JmlcParams.fc p = 0)
  /\ (generateProfile p stepSize <> []
      <-> nth_error (generateProfile p stepSize) 0 = Some (initialPoint p)).
Proof.
  split; [| split; [apply getM_zero |]].
  - rewrite <- degenerate_true.
    destruct (degenerate p) eqn:D.
    + rewrite generateProfile_degenerate by exact D. tauto.
    + rewrite generateProfile_regular by exact D.
      split; discriminate.
  - destruct (degenerate p) eqn:D.
    + rewrite generateProfile_degenerate by exact D.
      split; [congruence | discriminate].
    + rewrite generateProfile_regular by exact D.
      split; [reflexivity | discriminate].
Qed.

(** A cutoff of zero is degenerate. *)
Example generateProfile_zero_cutoff :
  generateProfile (JmlcParams.mk 0 1 36 180) 1 = [].
Proof.
  apply generateProfile_degenerate. apply degenerate_true. left.
  apply getM_zero. reflexivity.
Qed.

(** Counterexample to C7 with the degenerate cutoff read as [fc <= 0]: a
    cutoff of -340 Hz would have to give the empty sequence, and it gives a
    sequence that starts with the seed. *)
Lemma generateProfile_negative_cutoff :
  let p := JmlcParams.mk (-340) 1 36 180 in
  ~ (generateProfile p 1 = []
     <-> JmlcParams.fc p <= 0 \/ JmlcParams.d0 p <= 0).
Proof.
  intros p [_ H].
  assert (E : generateProfile p 1 = []) by (apply H; left; simpl; lra).
  rewrite generateProfile_regular in E; [discriminate |].
  apply degenerate_false. split; [| simpl; lra].
  intros K. apply getM_zero in K. simpl in K. lra.
Qed.

(** C8. For parameters that pass the guard ([m] nonzero and [d0] positive)
    and any step size, the first point has index 0, [x = 0], [y = d0 / 2],
    length 0, radius [d0 / 2], angle 0 and deltaAngle 0. *)
Theorem generateProfile_seed (p : JmlcParams.t) (stepSize : R) :
  getM p <> 0 ->
  0 < JmlcParams.d0 p ->
  nth_error (generateProfile p stepSize) 0
  = Some (Point.mk 0 0 (JmlcParams.d0 p / 2) 0 (JmlcParams.d0 p / 2) 0 0).
Proof.
  intros Hm Hd.
  rewrite generateProfile_regular by (apply degenerate_false; auto).
  reflexivity.
Qed.

Lemma generateProfile_seed_example :
  (getM exampleParams <> 0 /\ 0 < JmlcParams.d0 exampleParams)
  /\ nth_error (generateProfile exampleParams 0.5) 0
     = Some (Point.mk 0 0 (36 / 2) 0 (36 / 2) 0 0).
Proof.
  split; [exact exampleParams_regular |].
  exact (generateProfile_seed exampleParams 0.5
           (proj1 exampleParams_regular) (proj2 exampleParams_regular)).
Defined.

(** C10. With a rollback limit of at most 0.005 degrees and parameters that
    pass the guard, the first solved angle is positive, so the first
    iteration already meets the rollback stop: the result is the seed
    alone. *)
Theorem generateProfile_small_rollback (p : JmlcParams.t) (stepSize : R) :
  getM p <> 0 ->
  0 < JmlcParams.d0 p ->
  JmlcParams.roundOver p <= 0.005 ->
  0 < thetaOf p stepSize (initialState p)
  /\ step p stepSize 0 (initialState p) = None
  /\ generateProfile p stepSize
     = [Point.mk 0 0 (JmlcParams.d0 p / 2) 0 (JmlcParams.d0 p / 2) 0 0].
Proof.
  intros Hm Hd Hr.
  assert (Hpos : 0 < thetaOf p stepSize (initialState p)).
  { rewrite thetaOf_initial. apply solveTheta_range. }
  assert (Hstop : step p stepSize 0 (initialState p) = None).
  { apply step_None. left. unfold EPSILON.
    pose proof rad_to_deg_pos as Hd180.
    assert (0 < thetaOf p stepSize (initialState p) * (180 / PI))
      by (apply Rmult_lt_0_compat; assumption).
    lra. }
  repeat split; [exact Hpos | exact Hstop |].
  rewrite generateProfile_regular by (apply degenerate_false; auto).
  rewrite loop_stop by exact Hstop. reflexivity.
Qed.

Lemma generateProfile_small_rollback_example :
  let p := JmlcParams.mk 340 1 36 0 in
  (getM p <> 0 /\ 0 < JmlcParams.d0 p /\ JmlcParams.roundOver p <= 0.005)
  /\ generateProfile p 1 = [Point.mk 0 0 (36 / 2) 0 (36 / 2) 0 0].
Proof.
  intros p.
  assert (Hm : getM p <> 0).
  { intros K. apply getM_zero in K. simpl in K. lra. }
  assert (Hd : 0 < JmlcParams.d0 p) by (simpl; lra).
  assert (Hr : JmlcParams.roundOver p <= 0.005) by (simpl; lra).
  split; [auto |].
  exact (proj2 (proj2 (generateProfile_small_rollback p 1 Hm Hd Hr))).
Defined.

(** ** States and points of the run *)

Lemma getTargetArea_spec (p : JmlcParams.t) (l : R) :
  getTargetArea p l = specArea p l.
Proof.
  unfold getTargetArea, specArea, specM, getM, C_SOUND. simpl. ring.
Qed.

Lemma stateAfter_S (p : JmlcParams.t) (stepSize : R) (k : nat)
    (st : State.t) :
  stateAfter p stepSize (S k) = Some st ->
  exists stk pt,
    stateAfter p stepSize k = Some stk
    /\ step p stepSize k stk = Some (st, pt).
Proof.
  unfold stateAfter. rewrite stateFrom_S. rewrite Nat.add_0_l.
  destruct (stateFrom p stepSize k 0 (initialState p)) as [stk |];
    [| discriminate].
  destruct (step p stepSize k stk) as [[st1 pt] |] eqn:E; [| discriminate].
  simpl. intros H. injection H as <-. exists stk, pt. auto.
Qed.

Lemma state_point (p : JmlcParams.t) (stepSize : R) (k : nat)
    (st : State.t) :
  degenerate p = false ->
  (k <= MAX_STEPS)%nat ->
  stateAfter p stepSize k = Some st ->
  exists pt,
    nth_error (generateProfile p stepSize) k = Some pt /\ agrees k st pt.
Proof.
  intros D Hk H. destruct k as [| k].
  - exists (initialPoint p).
    rewrite generateProfile_regular by exact D. split; [reflexivity |].
    unfold stateAfter in H. simpl in H. injection H as <-.
    unfold agrees, initialPoint, initialState. simpl.
    repeat split; try reflexivity. lra.
  - destruct (stateAfter_S p stepSize k st H) as (stk & pt & Hs & Hp).
    exists pt. split.
    + apply generateProfile_nth. split; [exact D |]. split; [lia |].
      exists stk, st. auto.
    + apply step_Some in Hp. destruct Hp as (-> & -> & _).
      unfold agrees, nextPoint, nextState. simpl.
      repeat split; try reflexivity. lia.
Qed.

(** C1. Every point past the seed comes from the point before it by one
    step of length [stepSize] at the wall angle [theta] of its iteration:
    [x] and [y] advance by [stepSize cos theta] and [stepSize sin theta],
    the length by [stepSize], the angle is [theta] in degrees, deltaAngle is
    the difference of the two angles, and the radius is the
    equivalent-planar radius of the area law at the new length. *)
Theorem accepted_step_point (p : JmlcParams.t) (stepSize : R) (k : nat)
    (pt : Point.t) :
  nth_error (generateProfile p stepSize) (S k) = Some pt ->
  exists (prev : Point.t) (st : State.t),
    nth_error (generateProfile p stepSize) k = Some prev
    /\ stateAfter p stepSize k = Some st
    /\ let theta := thetaOf p stepSize st in
       Point.index pt = S k
       /\ Point.x pt = Point.x prev + stepSize * cos theta
       /\ Point.y pt = Point.y prev + stepSize * sin theta
       /\ Point.length pt = Point.length prev + stepSize
       /\ Point.angle pt = theta * 180 / PI
       /\ Point.deltaAngle pt = Point.angle pt - Point.angle prev
       /\ Point.radius pt = sqrt (specArea p (Point.length pt) / PI).
Proof.
  intros H. apply generateProfile_nth in H.
  destruct H as (D & Hk & st & st' & Hst & Hstep).
  destruct (state_point p stepSize k st D (Nat.lt_le_incl _ _ Hk) Hst)
    as (prev & Hprev & Hi & Hx & Hy & Hl & Ha).
  exists prev, st. split; [exact Hprev |]. split; [exact Hst |].
  apply step_Some in Hstep. destruct Hstep as (_ & -> & _).
  cbn zeta. unfold nextPoint. simpl.
  rewrite Hx, Hy, Hl, Ha.
  pose proof PI_RGT_0 as HPI.
  repeat split; try reflexivity.
  - lia.
  - field. lra.
  - field. lra.
  - unfold targetOf. rewrite getTargetArea_spec. reflexivity.
Qed.

Lemma spiralParams_regular : degenerate spiralParams = false.
Proof.
  apply degenerate_false. split; [| simpl; lra].
  intros H. apply getM_zero in H. simpl in H. lra.
Qed.

Lemma solveTheta_deg (y stepSize S_target : R) :
  0 < solveTheta y stepSize S_target * (180 / PI) < 180.
Proof.
  pose proof (solveTheta_range y stepSize S_target) as [H0 H1].
  pose proof rad_to_deg_pos as Hd. pose proof PI_RGT_0 as HPI.
  split; [apply Rmult_lt_0_compat; assumption |].
  replace 180 with (PI * (180 / PI)) at 2 by (field; lra).
  apply Rmult_lt_compat_r; assumption.
Qed.

(** With a rollback limit above 180.005 degrees the first iteration runs to
    its end, in the physical regime. *)
Lemma first_step_runs (p : JmlcParams.t) (stepSize : R) :
  180.005 <= JmlcParams.roundOver p ->
  step p stepSize 0 (initialState p)
  = Some (nextState p stepSize (initialState p),
          nextPoint p stepSize 0 (initialState p)).
Proof.
  intros Hr.
  destruct (step_cases p stepSize 0 (initialState p))
    as [(_ & [Hs | (Hs & _)]) | (E & _)]; [| | exact E].
  - rewrite thetaOf_initial in Hs. unfold EPSILON in Hs.
    pose proof (solveTheta_deg (JmlcParams.d0 p / 2) stepSize
                  (getTargetArea p (0 + stepSize))) as [_ H].
    lra.
  - rewrite spiralOf_initial in Hs. discriminate.
Qed.

Lemma first_point (p : JmlcParams.t) (stepSize : R) :
  degenerate p = false ->
  180.005 <= JmlcParams.roundOver p ->
  nth_error (generateProfile p stepSize) 1
  = Some (nextPoint p stepSize 0 (initialState p)).
Proof.
  intros D Hr. apply generateProfile_nth. split; [exact D |].
  split; [apply Nat.ltb_lt; vm_compute; reflexivity |].
  exists (initialState p), (nextState p stepSize (initialState p)).
  split; [reflexivity | apply first_step_runs; exact Hr].
Qed.

Lemma spiralParams_first_point :
  nth_error (generateProfile spiralParams 0.5) 1
  = Some (nextPoint spiralParams 0.5 0 (initialState spiralParams)).
Proof.
  apply first_point; [exact spiralParams_regular | simpl; lra].
Qed.

Lemma accepted_step_point_example :
  let p := spiralParams in
  let pt := nextPoint p 0.5 0 (initialState p) in
  nth_error (generateProfile p 0.5) 1 = Some pt
  /\ exists (prev : Point.t) (st : State.t),
       nth_error (generateProfile p 0.5) 0 = Some prev
       /\ stateAfter p 0.5 0 = Some st
       /\ let theta := thetaOf p 0.5 st in
          Point.index pt = 1%nat
          /\ Point.x pt = Point.x prev + 0.5 * cos theta
          /\ Point.y pt = Point.y prev + 0.5 * sin theta
          /\ Point.length pt = Point.length prev + 0.5
          /\ Point.angle pt = theta * 180 / PI
          /\ Point.deltaAngle pt = Point.angle pt - Point.angle prev
          /\ Point.radius pt = sqrt (specArea p (Point.length pt) / PI).
Proof.
  intros p pt. split; [exact spiralParams_first_point |].
  exact (accepted_step_point p 0.5 0 pt spiralParams_first_point).
Defined.

Lemma loop_end (p : JmlcParams.t) (stepSize : R) (fuel i : nat)
    (st : State.t) :
  let n := List.length (loop p stepSize fuel i st) in
  n = fuel
  \/ exists stn,
       stateFrom p stepSize n i st = Some stn
       /\ step p stepSize (i + n) stn = None.
Proof.
  revert i st. induction fuel as [| fuel IH]; intros i st;
    [left; reflexivity |].
  cbn [loop].
  destruct (step p stepSize i st) as [[st1 pt1] |] eqn:E.
  - cbn [List.length stateFrom]. rewrite E.
    destruct (IH (S i) st1) as [H | (stn & H1 & H2)].
    + left. cbn zeta in H. lia.
    + right. exists stn. split; [exact H1 |].
      replace (i + S (List.length (loop p stepSize fuel (S i) st1)))%nat
        with (S i + List.length (loop p stepSize fuel (S i) st1))%nat by lia.
      exact H2.
  - right. exists st. simpl. rewrite Nat.add_0_r. auto.
Qed.

(** The points the loop pushes: as many as iterations ran to their end,
    each the point of its iteration. *)
Lemma loop_points (p : JmlcParams.t) (stepSize : R) (fuel i k : nat)
    (st : State.t) :
  (k < List.length (loop p stepSize fuel i st))%nat ->
  exists stk : State.t,
    stateFrom p stepSize k i st = Some stk
    /\ nth_error (loop p stepSize fuel i st) k
       = Some (nextPoint p stepSize (i + k) stk)
    /\ thetaOf p stepSize stk * (180 / PI)
       < JmlcParams.roundOver p - EPSILON
    /\ (spiralOf p stepSize stk = true ->
        0 < State.y stk + stepSize * sin (thetaOf p stepSize stk)).
Proof.
  intros Hk.
  destruct (nth_error (loop p stepSize fuel i st) k) as [pt |] eqn:E;
    [| apply nth_error_None in E; lia].
  pose proof E as E'. apply loop_nth in E'.
  destruct E' as (_ & stk & st' & Hst & Hstep).
  apply step_Some in Hstep. destruct Hstep as (_ & -> & Ha & Hy).
  exists stk. auto.
Qed.

(** C5. For parameters that pass the guard ([m] nonzero and [d0]
    positive) the result is the seed followed by [n] points, [n] at most
    the step cap: one for each of the first [n] iterations, in order, every
    one of which ran to its end.  Each of these points is the point of its
    iteration, has an angle below [roundOver - 0.005] degrees and, when
    pushed with the spiral flag set (the transition iteration included),
    has [y > 0].  Either [n] is the step cap, or iteration [n] met a stop
    condition, its angle having reached [roundOver - 0.005] or its next
    spiral radius being [<= 0], and pushed nothing: no point follows. *)
Theorem stop_conditions (p : JmlcParams.t) (stepSize : R) :
  getM p <> 0 ->
  0 < JmlcParams.d0 p ->
  exists n : nat,
    (n <= MAX_STEPS)%nat
    /\ List.length (generateProfile p stepSize) = S n
    /\ nth_error (generateProfile p stepSize) 0 = Some (initialPoint p)
    /\ (forall k : nat,
          (k < n)%nat ->
          exists (st : State.t) (pt : Point.t),
            stateAfter p stepSize k = Some st
            /\ nth_error (generateProfile p stepSize) (S k) = Some pt
            /\ pt = nextPoint p stepSize k st
            /\ Point.angle pt = thetaOf p stepSize st * (180 / PI)
            /\ Point.angle pt < JmlcParams.roundOver p - 0.005
            /\ (spiralOf p stepSize st = true -> 0 < Point.y pt))
    /\ (n = MAX_STEPS
        \/ exists st : State.t,
             stateAfter p stepSize n = Some st
             /\ step p stepSize n st = None
             /\ (JmlcParams.roundOver p - 0.005
                 <= thetaOf p stepSize st * (180 / PI)
                 \/ (spiralOf p stepSize st = true
                     /\ State.y st + stepSize * sin (thetaOf p stepSize st)
                        <= 0)))
    /\ nth_error (generateProfile p stepSize) (S n) = None.
Proof.
  intros Hm Hd.
  assert (D : degenerate p = false) by (apply degenerate_false; auto).
  rewrite generateProfile_regular by exact D.
  exists (List.length (loop p stepSize MAX_STEPS 0 (initialState p))).
  split; [apply loop_length |]. split; [reflexivity |].
  split; [reflexivity |]. split; [| split].
  - intros k Hk.
    destruct (loop_points p stepSize MAX_STEPS 0 k (initialState p) Hk)
      as (st & Hst & Hnth & Ha & Hy).
    rewrite Nat.add_0_l in Hnth.
    exists st, (nextPoint p stepSize k st).
    split; [exact Hst |]. split; [exact Hnth |]. split; [reflexivity |].
    split; [reflexivity |].
    split; [unfold nextPoint; simpl; unfold EPSILON in Ha; exact Ha |].
    exact Hy.
  - destruct (loop_end p stepSize MAX_STEPS 0 (initialState p))
      as [H | (stn & H1 & H2)]; [left; exact H | right].
    exists stn. rewrite Nat.add_0_l in H2.
    split; [exact H1 |]. split; [exact H2 |].
    assert (Hs : stops p stepSize stn) by (eapply step_None; exact H2).
    unfold stops, EPSILON in Hs. exact Hs.
  - cbn [nth_error]. apply nth_error_None. lia.
Qed.

Lemma stop_conditions_example :
  (getM exampleParams <> 0 /\ 0 < JmlcParams.d0 exampleParams)
  /\ exists n : nat,
       (n <= MAX_STEPS)%nat
       /\ List.length (generateProfile exampleParams 0.5) = S n
       /\ nth_error (generateProfile exampleParams 0.5) 0
          = Some (initialPoint exampleParams).
Proof.
  split; [exact exampleParams_regular |].
  destruct (stop_conditions exampleParams 0.5
              (proj1 exampleParams_regular) (proj2 exampleParams_regular))
    as (n & H1 & H2 & H3 & _).
  exists n. auto.
Defined.

(** ** The two regimes *)

Lemma determineAngle_spiral (p : JmlcParams.t) (stepSize : R) (st : State.t)
    (S_target : R) :
  State.isSpiraling st = true ->
  determineAngle p stepSize st S_target
  = (State.previousAngle st
     + State.baseDeltaTheta st * growthRate ^ S (State.spiralStepCount st),
     State.mk (State.l st) (State.x st) (State.y st)
       (State.previousAngle st) (State.previousDelta st)
       true (State.baseDeltaTheta st) (S (State.spiralStepCount st))).
Proof.
  intros H. unfold determineAngle. rewrite H. reflexivity.
Qed.

Lemma determineAngle_physical (p : JmlcParams.t) (stepSize : R)
    (st : State.t) :
  State.isSpiraling st = false ->
  determineAngle p stepSize st (targetOf p stepSize st)
  = if transitionTest p stepSize st
    then (State.previousAngle st + State.previousDelta st,
          State.mk (State.l st) (State.x st) (State.y st)
            (State.previousAngle st) (State.previousDelta st)
            true (State.previousDelta st) (State.spiralStepCount st))
    else (solveTheta (State.y st) stepSize (targetOf p stepSize st), st).
Proof.
  intros H. unfold determineAngle, transitionTest. rewrite H. reflexivity.
Qed.

Lemma transitionTest_true (p : JmlcParams.t) (stepSize : R) (st : State.t) :
  transitionTest p stepSize st = true
  <-> 90 < solveTheta (State.y st) stepSize (targetOf p stepSize st)
           * (180 / PI)
      /\ solveTheta (State.y st) stepSize (targetOf p stepSize st)
         - State.previousAngle st < State.previousDelta st
      /\ 100 < JmlcParams.roundOver p.
Proof.
  unfold transitionTest, SPIRAL_DETECTION_THRESHOLD_ANGLE. cbn zeta.
  rewrite !andb_true_iff, !Rltb_true. tauto.
Qed.

Lemma spiralOf_physical (p : JmlcParams.t) (stepSize : R) (st : State.t) :
  State.isSpiraling st = false ->
  spiralOf p stepSize st = transitionTest p stepSize st.
Proof.
  intros H. unfold spiralOf. rewrite determineAngle_physical by exact H.
  destruct (transitionTest p stepSize st); [reflexivity | exact H].
Qed.

Lemma spiralOf_spiral (p : JmlcParams.t) (stepSize : R) (st : State.t) :
  State.isSpiraling st = true -> spiralOf p stepSize st = true.
Proof.
  intros H. unfold spiralOf. rewrite determineAngle_spiral by exact H.
  reflexivity.
Qed.

Lemma thetaOf_spiral (p : JmlcParams.t) (stepSize : R) (st : State.t) :
  State.isSpiraling st = true ->
  thetaOf p stepSize st
  = State.previousAngle st
    + State.baseDeltaTheta st * 1.005 ^ S (State.spiralStepCount st).
Proof.
  intros H. unfold thetaOf. rewrite determineAngle_spiral by exact H.
  reflexivity.
Qed.

Lemma nextState_isSpiraling (p : JmlcParams.t) (stepSize : R) (st : State.t) :
  State.isSpiraling (nextState p stepSize st) = spiralOf p stepSize st.
Proof. reflexivity. Qed.

(** The spiral variables after an iteration that started in the spiral
    regime. *)
Lemma nextState_spiral (p : JmlcParams.t) (stepSize : R) (st : State.t) :
  State.isSpiraling st = true ->
  State.isSpiraling (nextState p stepSize st) = true
  /\ State.baseDeltaTheta (nextState p stepSize st) = State.baseDeltaTheta st
  /\ State.spiralStepCount (nextState p stepSize st)
     = S (State.spiralStepCount st).
Proof.
  intros H. unfold nextState.
  rewrite determineAngle_spiral by exact H. simpl. auto.
Qed.

(** The spiral variables after the iteration that made the transition. *)
Lemma nextState_transition (p : JmlcParams.t) (stepSize : R) (st : State.t) :
  State.isSpiraling st = false ->
  spiralOf p stepSize st = true ->
  thetaOf p stepSize st = State.previousAngle st + State.previousDelta st
  /\ State.baseDeltaTheta (nextState p stepSize st) = State.previousDelta st
  /\ State.spiralStepCount (nextState p stepSize st)
     = State.spiralStepCount st.
Proof.
  intros H Hs. rewrite spiralOf_physical in Hs by exact H.
  unfold nextState, thetaOf.
  rewrite determineAngle_physical by exact H. rewrite Hs. simpl. auto.
Qed.

(** An iteration that stays in the physical regime leaves the spiral
    variables alone. *)
Lemma nextState_physical (p : JmlcParams.t) (stepSize : R) (st : State.t) :
  spiralOf p stepSize st = false ->
  State.isSpiraling st = false
  /\ thetaOf p stepSize st
     = solveTheta (State.y st) stepSize (targetOf p stepSize st)
  /\ State.spiralStepCount (nextState p stepSize st)
     = State.spiralStepCount st.
Proof.
  intros Hs.
  destruct (State.isSpiraling st) eqn:H;
    [rewrite spiralOf_spiral in Hs by exact H; discriminate |].
  rewrite spiralOf_physical in Hs by exact H.
  unfold nextState, thetaOf.
  rewrite determineAngle_physical by exact H. rewrite Hs. simpl. auto.
Qed.

(** Once set, the spiral flag stays set, the base increment stays what it
    was, and the counter counts the iterations. *)
Lemma spiral_run (p : JmlcParams.t) (stepSize : R) (n i : nat)
    (st st' : State.t) :
  State.isSpiraling st = true ->
  stateFrom p stepSize n i st = Some st' ->
  State.isSpiraling st' = true
  /\ State.baseDeltaTheta st' = State.baseDeltaTheta st
  /\ State.spiralStepCount st' = (State.spiralStepCount st + n)%nat.
Proof.
  intros H. revert st'. induction n as [| n IH]; intros st' Hrun.
  - simpl in Hrun. injection Hrun as <-. rewrite Nat.add_0_r. auto.
  - rewrite stateFrom_S in Hrun.
    destruct (stateFrom p stepSize n i st) as [stn |]; [| discriminate].
    destruct (IH stn eq_refl) as (I1 & I2 & I3).
    destruct (step p stepSize (i + n) stn) as [[s1 p1] |] eqn:E;
      [| discriminate].
    simpl in Hrun. injection Hrun as <-.
    apply step_Some in E. destruct E as (-> & _).
    destruct (nextState_spiral p stepSize stn I1) as (J1 & J2 & J3).
    rewrite J1, J2, J3, I2, I3. repeat split; lia.
Qed.

(** In the physical regime the spiral counter has not moved. *)
Lemma physical_count (p : JmlcParams.t) (stepSize : R) (k : nat)
    (st : State.t) :
  stateAfter p stepSize k = Some st ->
  State.isSpiraling st = false ->
  State.spiralStepCount st = 0%nat.
Proof.
  revert st. induction k as [| k IH]; intros st Hst Hphys.
  - unfold stateAfter in Hst. simpl in Hst. injection Hst as <-. reflexivity.
  - destruct (stateAfter_S p stepSize k st Hst) as (stk & pt & Hk & Hstep).
    apply step_Some in Hstep. destruct Hstep as (-> & _).
    rewrite nextState_isSpiraling in Hphys.
    destruct (nextState_physical p stepSize stk Hphys) as (P1 & _ & P3).
    rewrite P3. apply IH; assumption.
Qed.

Lemma stateAfter_add (p : JmlcParams.t) (stepSize : R) (t n : nat) :
  stateAfter p stepSize (t + n)
  = match stateAfter p stepSize t with
    | Some st => stateFrom p stepSize n t st
    | None => None
    end.
Proof.
  unfold stateAfter. rewrite stateFrom_add. reflexivity.
Qed.

(** ** A run that makes the transition *)

Lemma steepParams_regular : degenerate steepParams = false.
Proof.
  apply degenerate_false. split; [| simpl; lra].
  intros H. apply getM_zero in H. simpl in H. lra.
Qed.

Lemma PI_gt_3 : 3 < PI.
Proof. pose proof PI2_3_2. lra. Qed.

Lemma cosh_plus_sinh (x : R) : cosh x + 1 * sinh x = exp x.
Proof. unfold cosh, sinh. field. Qed.

(** The target area of the steep horn at length [l > 0]. *)
Lemma steep_target (l : R) :
  0 < l ->
  PI * 400 * ((1 + PI / 5 * l) * (1 + PI / 5 * l))
  < getTargetArea steepParams l.
Proof.
  intros Hl. unfold getTargetArea, getM, C_SOUND. simpl.
  rewrite cosh_plus_sinh.
  replace (4 * PI * 34320 / 343200 * l / 2) with (PI / 5 * l) by field.
  pose proof PI_gt_3 as HPI.
  assert (Ht : 0 < PI / 5 * l) by nra.
  assert (He : 1 + PI / 5 * l < exp (PI / 5 * l)).
  { apply exp_ineq1. lra. }
  set (e := exp (PI / 5 * l)) in *. set (u := 1 + PI / 5 * l) in *.
  replace (PI * (40 / 2) * (40 / 2) * e * e) with (PI * 400 * (e * e))
    by field.
  apply Rmult_lt_compat_l; [lra |].
  assert (0 < u) by (unfold u; lra). nra.
Qed.

(** When the area at 90 degrees is still below the target, the second pass
    raises the lower bound there and the solved angle is past 90 degrees. *)
Lemma solveTheta_upper_half (y stepSize S_target : R) :
  areaGap y stepSize S_target (PI / 2) < 0 ->
  PI / 2 < solveTheta y stepSize S_target < PI.
Proof.
  intros Hgap. rewrite solveTheta_unfold.
  change (bisect 49 y stepSize S_target (Search.mk 0 PI PI))
    with (bisect 48 y stepSize S_target
            (bisectStep y stepSize S_target (Search.mk 0 PI PI))).
  assert (E : bisectStep y stepSize S_target (Search.mk 0 PI PI)
              = Search.mk (PI / 2) PI (PI / 2)).
  { unfold bisectStep. simpl.
    replace ((0 + PI) / 2) with (PI / 2) by lra.
    rewrite (proj2 (js_lt_S_geometry y stepSize S_target (PI / 2)) Hgap).
    reflexivity. }
  rewrite E.
  assert (Hlt : Search.minTheta (Search.mk (PI / 2) PI (PI / 2))
                < Search.maxTheta (Search.mk (PI / 2) PI (PI / 2))).
  { simpl. pose proof PI_RGT_0. lra. }
  destruct (bisect_theta_inside 47 y stepSize S_target _ Hlt) as (H & _).
  exact H.
Qed.

Lemma areaGap_PI2 (y stepSize S_target : R) :
  areaGap y stepSize S_target (PI / 2)
  = 2 * PI * (y + stepSize) * (y + stepSize) - S_target.
Proof.
  unfold areaGap. rewrite sin_PI2, cos_PI2. ring.
Qed.

Lemma steep_theta1 :
  PI / 2 < thetaOf steepParams 1 (initialState steepParams) < PI.
Proof.
  rewrite thetaOf_initial. apply solveTheta_upper_half.
  rewrite areaGap_PI2.
  assert (H : 0 < 0 + 1) by lra.
  pose proof (steep_target (0 + 1) H) as Ht.
  pose proof PI_gt_3 as HPI. simpl. nra.
Qed.

Lemma steep_stateAfter1 : stateAfter steepParams 1 1 = Some steepState1.
Proof.
  unfold stateAfter. simpl.
  rewrite first_step_runs by (simpl; lra). reflexivity.
Qed.

Lemma steep_state1_fields :
  State.isSpiraling steepState1 = false
  /\ State.l steepState1 = 0 + 1
  /\ 20 <= State.y steepState1 <= 21
  /\ PI / 2 < State.previousAngle steepState1 < PI
  /\ State.previousDelta steepState1 = State.previousAngle steepState1.
Proof.
  pose proof steep_theta1 as Ht.
  unfold steepState1, nextState.
  pose proof (spiralOf_initial steepParams 1) as Hs. unfold spiralOf in Hs.
  rewrite Hs. simpl.
  set (theta := thetaOf steepParams 1 (initialState steepParams)) in *.
  pose proof (SIN_bound theta) as [_ Hs1].
  assert (0 <= sin theta) by (apply sin_ge_0; lra).
  repeat split; try lra.
Qed.

(** The second iteration of the steep horn makes the transition. *)
Lemma steep_transition :
  State.isSpiraling steepState1 = false
  /\ spiralOf steepParams 1 steepState1 = true.
Proof.
  destruct steep_state1_fields as (Hphys & Hl & Hy & Ha & Hd).
  split; [exact Hphys |].
  rewrite spiralOf_physical by exact Hphys.
  apply transitionTest_true.
  assert (Hhalf : PI / 2 < solveTheta (State.y steepState1) 1
                             (targetOf steepParams 1 steepState1) < PI).
  { apply solveTheta_upper_half. rewrite areaGap_PI2.
    unfold targetOf. rewrite Hl.
    assert (H : 0 < 0 + 1 + 1) by lra.
    pose proof (steep_target (0 + 1 + 1) H) as Ht.
    pose proof PI_gt_3 as HPI.
    set (y1 := State.y steepState1) in *.
    assert (Hsq : (y1 + 1) * (y1 + 1) <= 484) by nra.
    assert (Hu : 4 < (1 + PI / 5 * (0 + 1 + 1)) * (1 + PI / 5 * (0 + 1 + 1)))
      by nra.
    assert (Hlow : PI * 400 * 4
                   < PI * 400 * ((1 + PI / 5 * (0 + 1 + 1))
                                 * (1 + PI / 5 * (0 + 1 + 1)))).
    { apply Rmult_lt_compat_l; [lra | exact Hu]. }
    assert (Hup : 2 * PI * (y1 + 1) * (y1 + 1) <= 2 * PI * 484).
    { rewrite !Rmult_assoc. apply Rmult_le_compat_l; [lra |].
      apply Rmult_le_compat_l; [lra | exact Hsq]. }
    lra. }
  pose proof PI_RGT_0 as HPI. pose proof rad_to_deg_pos as Hdeg.
  split; [| split; [rewrite Hd; lra | simpl; lra]].
  replace 90 with (PI / 2 * (180 / PI)) by (field; lra).
  apply Rmult_lt_compat_r; lra.
Qed.

(** The transition iteration of the steep horn runs to its end. *)
Lemma steep_step2 :
  step steepParams 1 1 steepState1
  = Some (steepState2, nextPoint steepParams 1 1 steepState1).
Proof.
  destruct steep_state1_fields as (Hphys & Hl & Hy & Ha & Hd).
  destruct steep_transition as (_ & Hsp).
  destruct (nextState_transition steepParams 1 steepState1 Hphys Hsp)
    as (Hth & _).
  destruct (step_cases steepParams 1 1 steepState1)
    as [(_ & [Hs | (_ & Hs)]) | (E & _)]; [| | exact E].
  - rewrite Hth, Hd in Hs. unfold EPSILON in Hs.
    simpl JmlcParams.roundOver in Hs.
    pose proof PI_RGT_0 as HPI. pose proof rad_to_deg_pos as Hdeg.
    assert ((State.previousAngle steepState1
             + State.previousAngle steepState1) * (180 / PI)
            < (2 * PI) * (180 / PI))
      by (apply Rmult_lt_compat_r; lra).
    replace (2 * PI * (180 / PI)) with 360 in H by (field; lra).
    lra.
  - pose proof (SIN_bound (thetaOf steepParams 1 steepState1)) as [Hs0 _].
    lra.
Qed.

Lemma steep_stateAfter2 : stateAfter steepParams 1 2 = Some steepState2.
Proof.
  unfold stateAfter. simpl.
  rewrite first_step_runs by (simpl; lra).
  fold steepState1. rewrite steep_step2. reflexivity.
Qed.

(** The states that follow an iteration which set the spiral flag. *)
Lemma after_spiral_step (p : JmlcParams.t) (stepSize : R) (k j : nat)
    (st st' : State.t) :
  stateAfter p stepSize k = Some st ->
  spiralOf p stepSize st = true ->
  stateAfter p stepSize (k + S j) = Some st' ->
  State.isSpiraling st' = true
  /\ State.baseDeltaTheta st'
     = State.baseDeltaTheta (nextState p stepSize st)
  /\ State.spiralStepCount st'
     = (State.spiralStepCount (nextState p stepSize st) + j)%nat.
Proof.
  intros Hst Hsp Hrun.
  rewrite stateAfter_add, Hst in Hrun. cbn [stateFrom] in Hrun.
  destruct (step p stepSize k st) as [[st1 pt1] |] eqn:E; [| discriminate].
  apply step_Some in E. destruct E as (-> & _).
  apply (spiral_run p stepSize j (S k)); [| exact Hrun].
  rewrite nextState_isSpiraling. exact Hsp.
Qed.

(** C4. From the physical regime the solver moves to the spiral regime
    exactly when the angle found by the bisection is past 90 degrees, its
    increment is below the previous increment, and [roundOver] is above 100;
    the angle of that iteration is then [previousAngle + previousDelta], with
    [previousDelta] kept as the base increment of the spiral, and otherwise it
    is the angle found by the bisection.  After an iteration
    that set the spiral flag every later iteration finds the flag set and
    takes its angle from the spiral formula, not from the bisection. *)
Theorem spiral_transition (p : JmlcParams.t) (stepSize : R) (k : nat)
    (st : State.t) :
  stateAfter p stepSize k = Some st ->
  let thetaB := solveTheta (State.y st) stepSize (targetOf p stepSize st) in
  (State.isSpiraling st = false ->
   (spiralOf p stepSize st = true
    <-> 90 < thetaB * (180 / PI)
        /\ thetaB - State.previousAngle st < State.previousDelta st
        /\ 100 < JmlcParams.roundOver p)
   /\ (spiralOf p stepSize st = true ->
       thetaOf p stepSize st
       = State.previousAngle st + State.previousDelta st
       /\ State.baseDeltaTheta (nextState p stepSize st)
          = State.previousDelta st)
   /\ (spiralOf p stepSize st = false -> thetaOf p stepSize st = thetaB))
  /\ (spiralOf p stepSize st = true ->
      forall (j : nat) (st' : State.t),
        stateAfter p stepSize (k + S j) = Some st' ->
        State.isSpiraling st' = true
        /\ spiralOf p stepSize st' = true
        /\ thetaOf p stepSize st'
           = State.previousAngle st'
             + State.baseDeltaTheta st'
               * 1.005 ^ S (State.spiralStepCount st')).
Proof.
  intros Hst thetaB. split.
  - intros Hphys. split; [| split].
    + rewrite spiralOf_physical by exact Hphys.
      apply transitionTest_true.
    + intros Hsp.
      destruct (nextState_transition p stepSize st Hphys Hsp) as (T1 & T2 & _).
      split; assumption.
    + intros Hsp.
      apply (nextState_physical p stepSize st Hsp).
  - intros Hsp j st' Hrun.
    destruct (after_spiral_step p stepSize k j st st' Hst Hsp Hrun)
      as (H1 & _).
    split; [exact H1 |]. split; [apply spiralOf_spiral; exact H1 |].
    apply thetaOf_spiral. exact H1.
Qed.

Lemma spiral_transition_example :
  stateAfter steepParams 1 1 = Some steepState1
  /\ State.isSpiraling steepState1 = false
  /\ spiralOf steepParams 1 steepState1 = true
  /\ thetaOf steepParams 1 steepState1
     = State.previousAngle steepState1 + State.previousDelta steepState1
  /\ stateAfter steepParams 1 (1 + 1) = Some steepState2
  /\ State.isSpiraling steepState2 = true
  /\ thetaOf steepParams 1 steepState2
     = State.previousAngle steepState2
       + State.baseDeltaTheta steepState2
         * 1.005 ^ S (State.spiralStepCount steepState2).
Proof.
  pose proof (spiral_transition steepParams 1 1 steepState1
                steep_stateAfter1) as (Hphys & Hrun).
  destruct (Hphys (proj1 steep_transition)) as (_ & Hth & _).
  apply proj1 in Hth; [| exact (proj2 steep_transition)].
  destruct (Hrun (proj2 steep_transition) 0%nat steepState2 steep_stateAfter2)
    as (H1 & _ & H3).
  split; [exact steep_stateAfter1 |].
  split; [exact (proj1 steep_transition) |].
  split; [exact (proj2 steep_transition) |].
  split; [exact Hth |].
  split; [exact steep_stateAfter2 |].
  split; [exact H1 | exact H3].
Defined.

(** C3. Counted from the iteration that makes the transition ([n = 0]), the
    [n]-th iteration of the spiral regime has the angle
    [previousAngle + baseIncrement * 1.005 ^ n], where [baseIncrement] is the
    increment of the iteration before the transition; the point it pushes
    has that increment, in degrees, as its deltaAngle. *)
Theorem spiral_increment (p : JmlcParams.t) (stepSize : R) (t n : nat)
    (st_t st : State.t) :
  stateAfter p stepSize t = Some st_t ->
  State.isSpiraling st_t = false ->
  spiralOf p stepSize st_t = true ->
  stateAfter p stepSize (t + n) = Some st ->
  let baseIncrement := State.previousDelta st_t in
  thetaOf p stepSize st
  = State.previousAngle st + baseIncrement * 1.005 ^ n
  /\ forall pt : Point.t,
       nth_error (generateProfile p stepSize) (S (t + n)) = Some pt ->
       Point.deltaAngle pt = baseIncrement * 1.005 ^ n * (180 / PI).
Proof.
  intros Ht Hphys Hsp Hst baseIncrement.
  assert (Htheta : thetaOf p stepSize st
                   = State.previousAngle st + baseIncrement * 1.005 ^ n).
  { destruct (nextState_transition p stepSize st_t Hphys Hsp)
      as (T1 & T2 & T3).
    destruct n as [| j].
    - rewrite Nat.add_0_r, Ht in Hst. injection Hst as <-.
      rewrite T1. unfold baseIncrement. simpl. ring.
    - destruct (after_spiral_step p stepSize t j st_t st Ht Hsp Hst)
        as (H1 & H2 & H3).
      rewrite thetaOf_spiral by exact H1.
      rewrite H2, H3, T2, T3.
      rewrite (physical_count p stepSize t st_t Ht Hphys).
      reflexivity. }
  split; [exact Htheta |].
  intros pt Hpt. apply generateProfile_nth in Hpt.
  destruct Hpt as (_ & _ & st2 & st' & Hst2 & Hstep).
  rewrite Hst in Hst2. injection Hst2 as <-.
  apply step_Some in Hstep. destruct Hstep as (_ & -> & _).
  unfold nextPoint. simpl. rewrite Htheta. ring.
Qed.

Lemma spiral_increment_example :
  (stateAfter steepParams 1 1 = Some steepState1
   /\ State.isSpiraling steepState1 = false
   /\ spiralOf steepParams 1 steepState1 = true
   /\ stateAfter steepParams 1 (1 + 1) = Some steepState2)
  /\ thetaOf steepParams 1 steepState2
     = State.previousAngle steepState2
       + State.previousDelta steepState1 * 1.005 ^ 1.
Proof.
  split.
  - repeat split;
      [exact steep_stateAfter1 | exact (proj1 steep_transition)
       | exact (proj2 steep_transition) | exact steep_stateAfter2].
  - exact (proj1 (spiral_increment steepParams 1 1 1 steepState1 steepState2
                    steep_stateAfter1 (proj1 steep_transition)
                    (proj2 steep_transition) steep_stateAfter2)).
Defined.

(** ** What fifty passes give *)












(** ** A run whose search has nothing to bracket *)










(** ** The coordinate export *)

Lemma append_assoc (a b c : string) :
  ((a ++ b) ++ c)%string = (a ++ b ++ c)%string.
Proof.
  induction a as [| ch a IH]; simpl; [reflexivity | rewrite IH; reflexivity].
Qed.

Lemma append_empty_r (a : string) : (a ++ "")%string = a.
Proof.
  induction a as [| ch a IH]; simpl; [reflexivity | rewrite IH; reflexivity].
Qed.

Lemma length_append (a b : string) :
  String.length (a ++ b) = (String.length a + String.length b)%nat.
Proof.
  induction a as [| ch a IH]; simpl; [reflexivity | rewrite IH; reflexivity].
Qed.

Lemma length_zeros (k : nat) : String.length (zeros k) = k.
Proof.
  induction k as [| k IH]; simpl; [reflexivity | rewrite IH; reflexivity].
Qed.

Lemma substring_length (s : string) (n m : nat) :
  (n + m <= String.length s)%nat -> String.length (substring n m s) = m.
Proof.
  revert n m. induction s as [| ch s IH]; intros n m H; simpl in H.
  - assert (n = 0%nat) by lia. assert (m = 0%nat) by lia. subst. reflexivity.
  - destruct n as [| n]; simpl.
    + destruct m as [| m]; simpl; [reflexivity |].
      rewrite (IH 0%nat m) by lia. reflexivity.
    + apply IH. lia.
Qed.

Lemma substring_all (s : string) : substring 0 (String.length s) s = s.
Proof.
  induction s as [| ch s IH]; simpl; [reflexivity | rewrite IH; reflexivity].
Qed.

Lemma substring_split (s : string) (n : nat) :
  (n <= String.length s)%nat ->
  (substring 0 n s ++ substring n (String.length s - n) s)%string = s.
Proof.
  revert n. induction s as [| ch s IH]; intros n H; simpl in H.
  - assert (n = 0%nat) by lia. subst. reflexivity.
  - destruct n as [| n].
    + rewrite Nat.sub_0_r. rewrite substring_all. reflexivity.
    + simpl. f_equal. apply IH. lia.
Qed.

(** The padded digit string has more than [f] characters. *)
Lemma padDigits_length (n : Z) (f : nat) :
  (f < String.length (padDigits n f))%nat.
Proof.
  unfold padDigits.
  destruct (Nat.leb_spec (String.length (digitsOf n)) f) as [H | H];
    [| exact H].
  rewrite length_append, length_zeros. lia.
Qed.

Section ExportFacts.

Variable Number_toString : R -> string.

Lemma generateCSV_fold (points : list Point.t) (csv : string) :
  fold_left (fun csv p => (csv ++ csvRow Number_toString p)%string)
    points csv
  = (csv ++ flatten (map (csvRow Number_toString) points))%string.
Proof.
  revert csv. induction points as [| p points IH]; intros csv; simpl.
  - rewrite append_empty_r. reflexivity.
  - rewrite IH, append_assoc. reflexivity.
Qed.

(** Below [1e21] a number printed with [toFixed(4)] is its sign, the
    integer digits, a point and four decimals: the digits of the integer
    nearest to [|v| * 10^4]. *)
Lemma toFixed_shape (v : R) :
  Rabs v < 10 ^ 21 ->
  let n := Zfloor (Rabs v * 10 ^ 4 + 1 / 2) in
  exists ip fp : string,
    toFixed Number_toString v 4
    = ((if Rlt_dec v 0 then "-" else "") ++ ip ++ "." ++ fp)%string
    /\ String.length fp = 4%nat
    /\ (ip ++ fp)%string = padDigits n 4
    /\ Rabs (IZR n / 10 ^ 4 - Rabs v) <= 0.00005.
Proof.
  intros Hv n. unfold toFixed.
  assert (Eabs : (if Rlt_dec v 0 then - v else v) = Rabs v).
  { unfold Rabs. destruct (Rlt_dec v 0), (Rcase_abs v); lra. }
  rewrite Eabs.
  destruct (Rle_dec (10 ^ 21) (Rabs v)) as [Hbig | _]; [lra |].
  fold n.
  pose proof (padDigits_length n 4) as Hlen.
  set (m := padDigits n 4) in *.
  exists (substring 0 (String.length m - 4) m),
    (substring (String.length m - 4) 4 m).
  split; [reflexivity |].
  split; [apply substring_length; lia |].
  split.
  - pose proof (substring_split m (String.length m - 4)) as H.
    replace (String.length m - (String.length m - 4))%nat with 4%nat in H
      by lia.
    apply H. lia.
  - pose proof (Zfloor_bound (Rabs v * 10 ^ 4 + 1 / 2)) as [B1 B2].
    fold n in B1, B2. apply Rabs_le.
    assert (Hp : 10 ^ 4 = 10000) by (simpl; lra).
    rewrite Hp in *. lra.
Qed.

Lemma toFixed_3_6 : toFixed Number_toString (36 / 10) 4 = "3.6000"%string.
Proof.
  unfold toFixed.
  destruct (Rlt_dec (36 / 10) 0) as [H | _]; [lra |].
  destruct (Rle_dec (10 ^ 21) (36 / 10)) as [H | _]; [simpl in H; lra |].
  replace (Zfloor (36 / 10 * 10 ^ 4 + 1 / 2)) with 36000%Z;
    [reflexivity |].
  symmetry. apply Zfloor_eq. simpl. lra.
Qed.

Lemma toFixed_1_8 : toFixed Number_toString (18 / 10) 4 = "1.8000"%string.
Proof.
  unfold toFixed.
  destruct (Rlt_dec (18 / 10) 0) as [H | _]; [lra |].
  destruct (Rle_dec (10 ^ 21) (18 / 10)) as [H | _]; [simpl in H; lra |].
  replace (Zfloor (18 / 10 * 10 ^ 4 + 1 / 2)) with 18000%Z;
    [reflexivity |].
  symmetry. apply Zfloor_eq. simpl. lra.
Qed.

(** C9. For every point sequence, the empty one included, [generateCSV]
    gives the header line followed by one row per point, in order; a row is
    [x / 10] and [y / 10] printed with [toFixed(4)], a third column
    [0.0000] and a newline, and a number below [1e21] so printed has
    exactly four decimals.  A point with [x = 36] and [y = 18] gives the
    row [3.6000,1.8000,0.0000]. *)
Theorem generateCSV_rows (points : list Point.t) :
  generateCSV Number_toString points
  = (("X (cm),Y (cm),Z (cm)" ++ newline)
       ++ flatten (map (csvRow Number_toString) points))%string
  /\ (forall p : Point.t,
        csvRow Number_toString p
        = (toFixed Number_toString (Point.x p / 10) 4 ++ ","
             ++ toFixed Number_toString (Point.y p / 10) 4
             ++ ",0.0000" ++ newline)%string)
  /\ (forall v : R,
        Rabs v < 10 ^ 21 ->
        exists ip fp : string,
          toFixed Number_toString v 4
          = ((if Rlt_dec v 0 then "-" else "") ++ ip ++ "." ++ fp)%string
          /\ String.length fp = 4%nat
          /\ (ip ++ fp)%string
             = padDigits (Zfloor (Rabs v * 10 ^ 4 + 1 / 2)) 4
          /\ Rabs (IZR (Zfloor (Rabs v * 10 ^ 4 + 1 / 2)) / 10 ^ 4
                   - Rabs v) <= 0.00005)
  /\ (forall p : Point.t,
        Point.x p = 36 -> Point.y p = 18 ->
        csvRow Number_toString p
        = ("3.6000,1.8000,0.0000" ++ newline)%string)
  /\ generateCSV Number_toString []
     = ("X (cm),Y (cm),Z (cm)" ++ newline)%string.
Proof.
  split; [unfold generateCSV; apply generateCSV_fold |].
  split; [reflexivity |].
  split; [exact toFixed_shape |].
  split; [| reflexivity].
  intros p Hx Hy. unfold csvRow.
  rewrite Hx, Hy, toFixed_3_6, toFixed_1_8. reflexivity.
Qed.

End ExportFacts.


(** * Further properties of the solver *)

Lemma initialState_after (p : JmlcParams.t) (stepSize : R) :
  stateAfter p stepSize 0 = Some (initialState p).
Proof. reflexivity. Qed.

(** The arc length after [k] iterations is [k] steps. *)
Lemma state_length (p : JmlcParams.t) (stepSize : R) (k : nat)
    (st : State.t) :
  stateAfter p stepSize k = Some st -> State.l st = INR k * stepSize.
Proof.
  revert st. induction k as [| k IH]; intros st Hst.
  - rewrite initialState_after in Hst. injection Hst as <-. simpl. ring.
  - destruct (stateAfter_S p stepSize k st Hst) as (stk & pt & Hk & Hstep).
    apply step_Some in Hstep. destruct Hstep as (-> & _).
    unfold nextState. simpl State.l. rewrite (IH stk Hk), S_INR. ring.
Qed.

(** A point of the result, the seed or a later one, agrees with the state
    after as many iterations. *)
Lemma point_state (p : JmlcParams.t) (stepSize : R) (k : nat)
    (pt : Point.t) :
  nth_error (generateProfile p stepSize) k = Some pt ->
  degenerate p = false
  /\ (k <= MAX_STEPS)%nat
  /\ exists st, stateAfter p stepSize k = Some st /\ agrees k st pt.
Proof.
  intros H. destruct k as [| k].
  - destruct (degenerate p) eqn:D.
    + rewrite generateProfile_degenerate in H by exact D. discriminate.
    + split; [reflexivity |]. split; [lia |].
      exists (initialState p). split; [reflexivity |].
      destruct (state_point p stepSize 0 (initialState p) D (Nat.le_0_l _)
                  (initialState_after p stepSize)) as (pt' & Hpt' & Hag).
      rewrite H in Hpt'. injection Hpt' as <-. exact Hag.
  - apply generateProfile_nth in H.
    destruct H as (D & Hk & st & st' & Hst & Hstep).
    split; [exact D |]. split; [lia |].
    exists st'.
    assert (Hst' : stateAfter p stepSize (S k) = Some st').
    { unfold stateAfter. rewrite stateFrom_S. fold (stateAfter p stepSize k).
      rewrite Hst, Nat.add_0_l, Hstep. reflexivity. }
    split; [exact Hst' |].
    destruct (state_point p stepSize (S k) st' D Hk Hst') as (pt' & Hpt' & Hag).
    assert (Hnth : nth_error (generateProfile p stepSize) (S k) = Some pt).
    { apply generateProfile_nth. split; [exact D |]. split; [exact Hk |].
      exists st, st'. auto. }
    rewrite Hnth in Hpt'. injection Hpt' as <-. exact Hag.
Qed.

(** Two consecutive points and the iteration between them. *)
Lemma consecutive_points (p : JmlcParams.t) (stepSize : R) (k : nat)
    (pt : Point.t) :
  nth_error (generateProfile p stepSize) (S k) = Some pt ->
  exists (prev : Point.t) (st : State.t),
    nth_error (generateProfile p stepSize) k = Some prev
    /\ stateAfter p stepSize k = Some st
    /\ agrees k st prev
    /\ pt = nextPoint p stepSize k st
    /\ ~ stops p stepSize st.
Proof.
  intros H. apply generateProfile_nth in H.
  destruct H as (D & Hk & st & st' & Hst & Hstep).
  destruct (state_point p stepSize k st D (Nat.lt_le_incl _ _ Hk) Hst)
    as (prev & Hprev & Hag).
  exists prev, st.
  split; [exact Hprev |]. split; [exact Hst |]. split; [exact Hag |].
  split.
  - apply step_Some in Hstep. destruct Hstep as (_ & E & _). exact E.
  - intros Hs. apply (step_None p stepSize k) in Hs. congruence.
Qed.

(** X1. The [k]-th point of the result has index [k] and arc length
    [k * stepSize]. *)
Theorem profile_index_length (p : JmlcParams.t) (stepSize : R) (k : nat)
    (pt : Point.t) :
  nth_error (generateProfile p stepSize) k = Some pt ->
  Point.index pt = k /\ Point.length pt = INR k * stepSize.
Proof.
  intros H. destruct (point_state p stepSize k pt H)
    as (_ & _ & st & Hst & Hi & _ & _ & Hl & _).
  split; [exact Hi |]. rewrite Hl. apply (state_length p stepSize k st Hst).
Qed.

Lemma profile_index_length_example :
  let pt := nextPoint spiralParams 0.5 0 (initialState spiralParams) in
  nth_error (generateProfile spiralParams 0.5) 1 = Some pt
  /\ Point.index pt = 1%nat /\ Point.length pt = INR 1 * 0.5.
Proof.
  intros pt. split; [exact spiralParams_first_point |].
  exact (profile_index_length spiralParams 0.5 1 pt spiralParams_first_point).
Defined.

(** X2. Two consecutive points of the result are exactly one step apart:
    the squared distance between them is [stepSize ^ 2]. *)
Theorem profile_chord (p : JmlcParams.t) (stepSize : R) (k : nat)
    (prev pt : Point.t) :
  nth_error (generateProfile p stepSize) k = Some prev ->
  nth_error (generateProfile p stepSize) (S k) = Some pt ->
  (Point.x pt - Point.x prev) ^ 2 + (Point.y pt - Point.y prev) ^ 2
  = stepSize ^ 2.
Proof.
  intros Hprev Hpt.
  destruct (consecutive_points p stepSize k pt Hpt)
    as (prev' & st & Hprev' & _ & (_ & Hx & Hy & _) & -> & _).
  rewrite Hprev in Hprev'. injection Hprev' as <-.
  unfold nextPoint. simpl. rewrite Hx, Hy.
  pose proof (sin2_cos2 (thetaOf p stepSize st)) as H. unfold Rsqr in H.
  set (c := cos (thetaOf p stepSize st)) in *.
  set (s := sin (thetaOf p stepSize st)) in *.
  replace ((State.x st + stepSize * c - State.x st)
           * ((State.x st + stepSize * c - State.x st) * 1)
           + (State.y st + stepSize * s - State.y st)
             * ((State.y st + stepSize * s - State.y st) * 1))
    with (stepSize * stepSize * (s * s + c * c)) by ring.
  rewrite H. ring.
Qed.

Lemma spiralParams_seed :
  nth_error (generateProfile spiralParams 0.5) 0
  = Some (initialPoint spiralParams).
Proof.
  rewrite generateProfile_regular by exact spiralParams_regular. reflexivity.
Qed.

Lemma profile_chord_example :
  let prev := initialPoint spiralParams in
  let pt := nextPoint spiralParams 0.5 0 (initialState spiralParams) in
  (nth_error (generateProfile spiralParams 0.5) 0 = Some prev
   /\ nth_error (generateProfile spiralParams 0.5) 1 = Some pt)
  /\ (Point.x pt - Point.x prev) ^ 2 + (Point.y pt - Point.y prev) ^ 2
     = 0.5 ^ 2.
Proof.
  intros prev pt.
  split; [split; [exact spiralParams_seed | exact spiralParams_first_point] |].
  exact (profile_chord spiralParams 0.5 0 prev pt spiralParams_seed
           spiralParams_first_point).
Defined.

(** With a non-negative step the radius [y] stays positive along the run. *)
Lemma state_y_pos (p : JmlcParams.t) (stepSize : R) (k : nat)
    (st : State.t) :
  degenerate p = false ->
  0 <= stepSize ->
  stateAfter p stepSize k = Some st ->
  0 < State.y st.
Proof.
  intros D Hs. revert st. induction k as [| k IH]; intros st Hst.
  - rewrite initialState_after in Hst. injection Hst as <-. simpl.
    apply degenerate_false in D. lra.
  - destruct (stateAfter_S p stepSize k st Hst) as (stk & pt & Hk & Hstep).
    apply step_Some in Hstep. destruct Hstep as (-> & _ & _ & Hy).
    unfold nextState. simpl State.y.
    destruct (spiralOf p stepSize stk) eqn:Esp; [apply Hy; reflexivity |].
    destruct (nextState_physical p stepSize stk Esp) as (_ & Hth & _).
    rewrite Hth.
    pose proof (solveTheta_range (State.y stk) stepSize
                  (targetOf p stepSize stk)) as [H0 H1].
    pose proof (sin_gt_0 _ H0 H1) as Hsin.
    specialize (IH stk Hk). nra.
Qed.

(** X3. With a non-negative step size every point of the result has a
    positive radius [y]. *)
Theorem profile_y_positive (p : JmlcParams.t) (stepSize : R) (k : nat)
    (pt : Point.t) :
  0 <= stepSize ->
  nth_error (generateProfile p stepSize) k = Some pt ->
  0 < Point.y pt.
Proof.
  intros Hs H.
  destruct (point_state p stepSize k pt H)
    as (D & _ & st & Hst & _ & _ & Hy & _).
  rewrite Hy. apply (state_y_pos p stepSize k st D Hs Hst).
Qed.

Lemma profile_y_positive_example :
  let pt := nextPoint spiralParams 0.5 0 (initialState spiralParams) in
  (0 <= 0.5 /\ nth_error (generateProfile spiralParams 0.5) 1 = Some pt)
  /\ 0 < Point.y pt.
Proof.
  intros pt.
  assert (H : 0 <= 0.5) by lra.
  split; [split; [exact H | exact spiralParams_first_point] |].
  exact (profile_y_positive spiralParams 0.5 1 pt H spiralParams_first_point).
Defined.

(** X4. A point pushed by an iteration of the physical regime has an angle
    strictly between 0 and 180 degrees, and its radius [y] is not below the
    radius of the point before it when the step size is non-negative
    (above it when the step size is positive). *)
Theorem physical_point (p : JmlcParams.t) (stepSize : R) (k : nat)
    (prev pt : Point.t) :
  nth_error (generateProfile p stepSize) k = Some prev ->
  nth_error (generateProfile p stepSize) (S k) = Some pt ->
  exists st : State.t,
    stateAfter p stepSize k = Some st
    /\ (spiralOf p stepSize st = false ->
        0 < Point.angle pt < 180
        /\ (0 <= stepSize -> Point.y prev <= Point.y pt)
        /\ (0 < stepSize -> Point.y prev < Point.y pt)).
Proof.
  intros Hprev Hpt.
  destruct (consecutive_points p stepSize k pt Hpt)
    as (prev' & st & Hprev' & Hst & (_ & _ & Hy & _) & -> & _).
  rewrite Hprev in Hprev'. injection Hprev' as <-.
  exists st. split; [exact Hst |]. intros Hsp.
  destruct (nextState_physical p stepSize st Hsp) as (_ & Hth & _).
  unfold nextPoint. simpl. rewrite Hth, Hy.
  pose proof (solveTheta_range (State.y st) stepSize
                (targetOf p stepSize st)) as [H0 H1].
  pose proof (sin_gt_0 _ H0 H1) as Hsin.
  split; [apply solveTheta_deg |].
  split; intros Hs; nra.
Qed.

Lemma physical_point_example :
  let prev := initialPoint spiralParams in
  let pt := nextPoint spiralParams 0.5 0 (initialState spiralParams) in
  (nth_error (generateProfile spiralParams 0.5) 0 = Some prev
   /\ nth_error (generateProfile spiralParams 0.5) 1 = Some pt)
  /\ spiralOf spiralParams 0.5 (initialState spiralParams) = false
  /\ exists st : State.t,
       stateAfter spiralParams 0.5 0 = Some st
       /\ (spiralOf spiralParams 0.5 st = false ->
           0 < Point.angle pt < 180
           /\ (0 <= 0.5 -> Point.y prev <= Point.y pt)
           /\ (0 < 0.5 -> Point.y prev < Point.y pt)).
Proof.
  intros prev pt.
  split; [split; [exact spiralParams_seed | exact spiralParams_first_point] |].
  split; [exact (spiralOf_initial spiralParams 0.5) |].
  exact (physical_point spiralParams 0.5 0 prev pt spiralParams_seed
           spiralParams_first_point).
Defined.

(** With [roundOver <= 100] the transition test always fails. *)
Lemma never_spiral (p : JmlcParams.t) (stepSize : R) (k : nat)
    (st : State.t) :
  JmlcParams.roundOver p <= 100 ->
  stateAfter p stepSize k = Some st ->
  State.isSpiraling st = false /\ spiralOf p stepSize st = false.
Proof.
  intros Hr. revert st.
  assert (Hstep : forall st, State.isSpiraling st = false ->
                             spiralOf p stepSize st = false).
  { intros st Hphys. rewrite spiralOf_physical by exact Hphys.
    unfold transitionTest. cbn zeta.
    replace (Rltb 100 (JmlcParams.roundOver p)) with false;
      [apply andb_false_r |].
    symmetry. apply Rltb_false. exact Hr. }
  induction k as [| k IH]; intros st Hst.
  - rewrite initialState_after in Hst. injection Hst as <-.
    split; [reflexivity | apply Hstep; reflexivity].
  - destruct (stateAfter_S p stepSize k st Hst) as (stk & pt & Hk & Hs).
    apply step_Some in Hs. destruct Hs as (-> & _).
    destruct (IH stk Hk) as (_ & Hsp).
    assert (Hphys : State.isSpiraling (nextState p stepSize stk) = false).
    { rewrite nextState_isSpiraling. exact Hsp. }
    split; [exact Hphys | apply Hstep; exact Hphys].
Qed.

(** When the area at 90 degrees is not below the target, the second pass
    lowers the upper bound there and the solved angle is below 90
    degrees. *)
Lemma solveTheta_lower_half (y stepSize S_target : R) :
  0 <= areaGap y stepSize S_target (PI / 2) ->
  0 < solveTheta y stepSize S_target < PI / 2.
Proof.
  intros Hgap. rewrite solveTheta_unfold.
  change (bisect 49 y stepSize S_target (Search.mk 0 PI PI))
    with (bisect 48 y stepSize S_target
            (bisectStep y stepSize S_target (Search.mk 0 PI PI))).
  assert (E : bisectStep y stepSize S_target (Search.mk 0 PI PI)
              = Search.mk 0 (PI / 2) (PI / 2)).
  { unfold bisectStep. simpl.
    replace ((0 + PI) / 2) with (PI / 2) by lra.
    rewrite (proj2 (js_lt_S_geometry_false y stepSize S_target (PI / 2)) Hgap).
    reflexivity. }
  rewrite E.
  assert (Hlt : Search.minTheta (Search.mk 0 (PI / 2) (PI / 2))
                < Search.maxTheta (Search.mk 0 (PI / 2) (PI / 2))).
  { simpl. pose proof PI_RGT_0. lra. }
  destruct (bisect_theta_inside 47 y stepSize S_target _ Hlt) as (H & _).
  exact H.
Qed.

Lemma gentleParams_regular : degenerate gentleParams = false.
Proof.
  apply degenerate_false. split; [| simpl; lra].
  intros H. apply getM_zero in H. simpl in H. lra.
Qed.

(** The first iteration of the gentle horn stays below 90 degrees and runs
    to its end. *)
Lemma gentle_first_step :
  stateAfter gentleParams 0.5 1
  = Some (nextState gentleParams 0.5 (initialState gentleParams)).
Proof.
  assert (Hth : 0 < thetaOf gentleParams 0.5 (initialState gentleParams)
                < PI / 2).
  { rewrite thetaOf_initial. apply solveTheta_lower_half.
    rewrite areaGap_PI2.
    unfold getTargetArea, getM, C_SOUND. simpl.
    rewrite cosh_plus_sinh.
    set (t := 4 * PI * 340 / 343200 * (0 + 0.5) / 2).
    pose proof PI_gt_3 as HPI. pose proof PI_4 as HPI4.
    assert (Ht : 0 < t <= 0.004) by (unfold t; lra).
    assert (Hm : 1 + - t < exp (- t)) by (apply exp_ineq1; lra).
    rewrite exp_Ropp in Hm.
    set (e := exp t) in *.
    assert (He0 : 0 < e) by apply exp_pos.
    assert (Hie : / e * e = 1) by (apply Rinv_l; lra).
    assert (He : e < 1.01) by nra.
    assert (Hee : e * e < 1.03) by nra.
    replace (PI * (36 / 2) * (36 / 2) * e * e) with (324 * PI * (e * e))
      by field.
    nra. }
  unfold stateAfter. simpl stateFrom.
  destruct (step_cases gentleParams 0.5 0 (initialState gentleParams))
    as [(_ & [Hs | (Hs & _)]) | (E & _)].
  - exfalso. unfold EPSILON in Hs. simpl JmlcParams.roundOver in Hs.
    pose proof PI_RGT_0 as HPI. pose proof rad_to_deg_pos as Hd.
    assert (thetaOf gentleParams 0.5 (initialState gentleParams) * (180 / PI)
            < PI / 2 * (180 / PI))
      by (apply Rmult_lt_compat_r; lra).
    replace (PI / 2 * (180 / PI)) with 90 in H by (field; lra).
    lra.
  - rewrite spiralOf_initial in Hs. discriminate.
  - rewrite E. reflexivity.
Qed.

(** X5. With a rollback limit of at most 100 degrees the solver never
    leaves the physical regime: after any number of iterations the spiral
    flag is clear, the next iteration leaves it clear, and its angle is the
    one found by the bisection. *)
Theorem physical_only_run (p : JmlcParams.t) (stepSize : R) (k : nat)
    (st : State.t) :
  JmlcParams.roundOver p <= 100 ->
  stateAfter p stepSize k = Some st ->
  State.isSpiraling st = false
  /\ spiralOf p stepSize st = false
  /\ thetaOf p stepSize st
     = solveTheta (State.y st) stepSize (targetOf p stepSize st)
  /\ State.spiralStepCount st = 0%nat
  /\ State.baseDeltaTheta st = 0.
Proof.
  intros Hr Hst.
  destruct (never_spiral p stepSize k st Hr Hst) as (H1 & H2).
  split; [exact H1 |]. split; [exact H2 |].
  split; [apply (nextState_physical p stepSize st H2) |].
  split; [apply (physical_count p stepSize k st Hst H1) |].
  clear H1 H2. revert st Hst. induction k as [| k IH]; intros st Hst.
  - rewrite initialState_after in Hst. injection Hst as <-. reflexivity.
  - destruct (stateAfter_S p stepSize k st Hst) as (stk & pt & Hk & Hs).
    apply step_Some in Hs. destruct Hs as (-> & _).
    destruct (never_spiral p stepSize k stk Hr Hk) as (Hphys & Hsp).
    unfold nextState. simpl State.baseDeltaTheta.
    rewrite determineAngle_physical by exact Hphys.
    rewrite spiralOf_physical in Hsp by exact Hphys. rewrite Hsp.
    simpl. apply IH. exact Hk.
Qed.

Lemma physical_only_run_example :
  let st := nextState gentleParams 0.5 (initialState gentleParams) in
  (JmlcParams.roundOver gentleParams <= 100
   /\ stateAfter gentleParams 0.5 1 = Some st)
  /\ State.isSpiraling st = false
  /\ spiralOf gentleParams 0.5 st = false.
Proof.
  intros st.
  assert (Hr : JmlcParams.roundOver gentleParams <= 100) by (simpl; lra).
  split; [split; [exact Hr | exact gentle_first_step] |].
  pose proof (physical_only_run gentleParams 0.5 1 st Hr gentle_first_step)
    as (H1 & H2 & _).
  split; assumption.
Defined.

(** X6. With a rollback limit of 180.005 degrees or more the physical
    regime never ends the run: the result has all 20001 points, or the run
    ends at an iteration that has the spiral flag set. *)
Theorem deep_rollback_end (p : JmlcParams.t) (stepSize : R) :
  180.005 <= JmlcParams.roundOver p ->
  generateProfile p stepSize <> [] ->
  Z.of_nat (List.length (generateProfile p stepSize)) = 20001%Z
  \/ exists (n : nat) (st : State.t),
       List.length (generateProfile p stepSize) = S n
       /\ stateAfter p stepSize n = Some st
       /\ spiralOf p stepSize st = true
       /\ stops p stepSize st.
Proof.
  intros Hr Hne.
  destruct (degenerate p) eqn:D;
    [rewrite generateProfile_degenerate in Hne by exact D; congruence |].
  rewrite generateProfile_regular by exact D. cbn [List.length].
  destruct (loop_end p stepSize MAX_STEPS 0 (initialState p))
    as [H | (stn & H1 & H2)].
  - left. cbn zeta in H. rewrite H. pose proof MAX_STEPS_Z. lia.
  - right. rewrite Nat.add_0_l in H2.
    exists (List.length (loop p stepSize MAX_STEPS 0 (initialState p))), stn.
    split; [reflexivity |]. split; [exact H1 |].
    assert (Hs : stops p stepSize stn) by (eapply step_None; exact H2).
    split; [| exact Hs].
    destruct (spiralOf p stepSize stn) eqn:Esp; [reflexivity | exfalso].
    destruct Hs as [Hs | (Hs & _)]; [| congruence].
    destruct (nextState_physical p stepSize stn Esp) as (_ & Hth & _).
    rewrite Hth in Hs. unfold EPSILON in Hs.
    pose proof (solveTheta_deg (State.y stn) stepSize
                  (targetOf p stepSize stn)) as [_ H].
    lra.
Qed.

Lemma deep_rollback_end_example :
  (180.005 <= JmlcParams.roundOver spiralParams
   /\ generateProfile spiralParams 0.5 <> [])
  /\ (Z.of_nat (List.length (generateProfile spiralParams 0.5)) = 20001%Z
      \/ exists (n : nat) (st : State.t),
           List.length (generateProfile spiralParams 0.5) = S n
           /\ stateAfter spiralParams 0.5 n = Some st
           /\ spiralOf spiralParams 0.5 st = true
           /\ stops spiralParams 0.5 st).
Proof.
  assert (Hr : 180.005 <= JmlcParams.roundOver spiralParams) by (simpl; lra).
  assert (Hne : generateProfile spiralParams 0.5 <> []).
  { rewrite generateProfile_regular by exact spiralParams_regular.
    discriminate. }
  split; [split; assumption |].
  exact (deep_rollback_end spiralParams 0.5 Hr Hne).
Defined.

(** The target area is a square. *)
Lemma getTargetArea_square (p : JmlcParams.t) (l : R) :
  getTargetArea p l / PI
  = Rsqr (JmlcParams.d0 p / 2
          * (cosh (getM p * l / 2) + JmlcParams.T p * sinh (getM p * l / 2))).
Proof.
  unfold getTargetArea, Rsqr. cbn zeta. field.
  pose proof PI_RGT_0. lra.
Qed.

(** X7. The [radius] field of every point, the seed included, is the
    absolute value of [d0 / 2 * (cosh (m l / 2) + T sinh (m l / 2))] at the
    point's arc length [l]. *)
Theorem profile_radius (p : JmlcParams.t) (stepSize : R) (k : nat)
    (pt : Point.t) :
  nth_error (generateProfile p stepSize) k = Some pt ->
  Point.radius pt
  = Rabs (JmlcParams.d0 p / 2
          * (cosh (getM p * Point.length pt / 2)
             + JmlcParams.T p * sinh (getM p * Point.length pt / 2))).
Proof.
  intros H. destruct k as [| k].
  - destruct (degenerate p) eqn:D;
      [rewrite generateProfile_degenerate in H by exact D; discriminate |].
    rewrite generateProfile_regular in H by exact D.
    injection H as <-. unfold initialPoint. simpl.
    apply degenerate_false in D.
    replace (getM p * 0 / 2) with 0 by field.
    rewrite cosh_0, sinh_0, Rmult_0_r, Rplus_0_r, Rmult_1_r.
    rewrite Rabs_right; [reflexivity | lra].
  - destruct (consecutive_points p stepSize k pt H)
      as (_ & st & _ & _ & _ & -> & _).
    unfold nextPoint, targetOf. simpl.
    rewrite getTargetArea_square. apply sqrt_Rsqr_abs.
Qed.

Lemma profile_radius_example :
  let pt := nextPoint spiralParams 0.5 0 (initialState spiralParams) in
  nth_error (generateProfile spiralParams 0.5) 1 = Some pt
  /\ Point.radius pt
     = Rabs (36 / 2
             * (cosh (getM spiralParams * Point.length pt / 2)
                + 1 * sinh (getM spiralParams * Point.length pt / 2))).
Proof.
  intros pt. split; [exact spiralParams_first_point |].
  exact (profile_radius spiralParams 0.5 1 pt spiralParams_first_point).
Defined.

(** X8. The area law at its ends: at length 0 the target is the throat area
    [PI (d0 / 2)^2] whatever [T] is, the target is never negative, with
    [T = 1] it is the exponential horn [S0 exp (m l)], and with [T = 0] the
    catenoidal horn [S0 cosh^2 (m l / 2)]. *)
Theorem area_law_cases (p : JmlcParams.t) :
  getTargetArea p 0 = PI * (JmlcParams.d0 p / 2) ^ 2
  /\ (forall l : R, 0 <= getTargetArea p l)
  /\ (JmlcParams.T p = 1 ->
      forall l : R,
        getTargetArea p l = PI * (JmlcParams.d0 p / 2) ^ 2 * exp (getM p * l))
  /\ (JmlcParams.T p = 0 ->
      forall l : R,
        getTargetArea p l
        = PI * (JmlcParams.d0 p / 2) ^ 2 * cosh (getM p * l / 2) ^ 2).
Proof.
  split; [| split; [| split]].
  - unfold getTargetArea. cbn zeta.
    replace (getM p * 0 / 2) with 0 by field.
    rewrite cosh_0, sinh_0. ring.
  - intros l.
    replace (getTargetArea p l) with (PI * (getTargetArea p l / PI))
      by (field; pose proof PI_RGT_0; lra).
    rewrite getTargetArea_square.
    apply Rmult_le_pos; [pose proof PI_RGT_0; lra | apply Rle_0_sqr].
  - intros HT l. unfold getTargetArea. cbn zeta. rewrite HT.
    rewrite cosh_plus_sinh.
    replace (getM p * l) with (getM p * l / 2 + getM p * l / 2) at 3 by field.
    rewrite exp_plus. ring.
  - intros HT l. unfold getTargetArea. cbn zeta. rewrite HT. ring.
Qed.

Lemma cosh_le (a b : R) : 0 <= a -> a <= b -> cosh a <= cosh b.
Proof.
  intros Ha Hab. unfold cosh. rewrite !exp_Ropp.
  assert (HA : 1 <= exp a).
  { destruct Ha as [Ha | <-]; [| rewrite exp_0; lra].
    rewrite <- exp_0. apply Rlt_le, exp_increasing. exact Ha. }
  assert (HB : exp a <= exp b).
  { destruct Hab as [Hab | <-]; [| lra].
    apply Rlt_le, exp_increasing. exact Hab. }
  set (A := exp a) in *. set (B := exp b) in *.
  assert (HiA : / A * A = 1) by (apply Rinv_l; lra).
  assert (HiB : / B * B = 1) by (apply Rinv_l; lra).
  assert (HiA0 : 0 < / A) by (apply Rinv_0_lt_compat; lra).
  assert (HiB0 : 0 < / B) by (apply Rinv_0_lt_compat; lra).
  assert (HiA1 : / A <= 1) by nra.
  assert (HiB1 : / B <= 1) by nra.
  assert (E : / A - / B = / A * / B * (B - A)) by (field; lra).
  assert (Hprod : / A * / B <= 1) by nra.
  assert (H : / A - / B <= B - A).
  { rewrite E. rewrite <- (Rmult_1_l (B - A)) at 2.
    apply Rmult_le_compat_r; lra. }
  lra.
Qed.

Lemma sinh_le (a b : R) : a <= b -> sinh a <= sinh b.
Proof.
  intros [H | <-]; [apply Rlt_le, sinh_lt; exact H | lra].
Qed.

Lemma cosh_ge_1 (a : R) : 0 <= a -> 1 <= cosh a.
Proof.
  intros Ha. rewrite <- cosh_0. apply cosh_le; lra.
Qed.

Lemma sinh_ge_0 (a : R) : 0 <= a -> 0 <= sinh a.
Proof.
  intros Ha. rewrite <- sinh_0. apply sinh_le. exact Ha.
Qed.

Lemma getTargetArea_le (p : JmlcParams.t) (l1 l2 : R) :
  0 <= JmlcParams.fc p ->
  0 <= JmlcParams.T p ->
  0 <= l1 -> l1 <= l2 ->
  getTargetArea p l1 <= getTargetArea p l2.
Proof.
  intros Hfc HT Hl1 Hl.
  assert (Hm : 0 <= getM p).
  { unfold getM, C_SOUND. pose proof PI_RGT_0.
    apply Rmult_le_pos; [nra | lra]. }
  unfold getTargetArea. cbn zeta.
  set (t1 := getM p * l1 / 2). set (t2 := getM p * l2 / 2).
  assert (Ht1 : 0 <= t1) by (unfold t1; nra).
  assert (Ht : t1 <= t2) by (unfold t1, t2; nra).
  pose proof (cosh_le t1 t2 Ht1 Ht) as Hc.
  pose proof (sinh_le t1 t2 Ht) as Hs.
  pose proof (cosh_ge_1 t1 Ht1) as Hc1.
  pose proof (sinh_ge_0 t1 Ht1) as Hs0.
  set (e1 := cosh t1 + JmlcParams.T p * sinh t1).
  set (e2 := cosh t2 + JmlcParams.T p * sinh t2).
  assert (He1 : 0 <= e1) by (unfold e1; nra).
  assert (He : e1 <= e2) by (unfold e1, e2; nra).
  assert (Hs0' : 0 <= PI * (JmlcParams.d0 p / 2) * (JmlcParams.d0 p / 2)).
  { pose proof PI_RGT_0. nra. }
  rewrite !(Rmult_assoc (PI * (JmlcParams.d0 p / 2) * (JmlcParams.d0 p / 2))).
  apply Rmult_le_compat_l; [exact Hs0' | nra].
Qed.

(** X9. For a non-negative cutoff and a non-negative expansion factor the
    target area does not decrease along the wall: it is monotone in the
    arc length on [l >= 0]. *)
Theorem area_law_monotone (p : JmlcParams.t) (l1 l2 : R) :
  0 <= JmlcParams.fc p ->
  0 <= JmlcParams.T p ->
  0 <= l1 -> l1 <= l2 ->
  getTargetArea p l1 <= getTargetArea p l2.
Proof.
  apply getTargetArea_le.
Qed.

Lemma area_law_monotone_example :
  (0 <= JmlcParams.fc exampleParams /\ 0 <= JmlcParams.T exampleParams
   /\ 0 <= 10 /\ 10 <= 20)
  /\ getTargetArea exampleParams 10 <= getTargetArea exampleParams 20.
Proof.
  assert (H1 : 0 <= JmlcParams.fc exampleParams) by (simpl; lra).
  assert (H2 : 0 <= JmlcParams.T exampleParams) by (simpl; lra).
  assert (H3 : 0 <= 10) by lra.
  assert (H4 : 10 <= 20) by lra.
  split; [auto |].
  exact (area_law_monotone exampleParams 10 20 H1 H2 H3 H4).
Defined.

(** The [radius] field is the equivalent-planar radius of the target at the
    point's arc length, for the seed too. *)
Lemma radius_sqrt (p : JmlcParams.t) (stepSize : R) (k : nat)
    (pt : Point.t) :
  nth_error (generateProfile p stepSize) k = Some pt ->
  Point.radius pt = sqrt (getTargetArea p (Point.length pt) / PI).
Proof.
  intros H. destruct k as [| k].
  - destruct (degenerate p) eqn:D;
      [rewrite generateProfile_degenerate in H by exact D; discriminate |].
    rewrite generateProfile_regular in H by exact D.
    injection H as <-. unfold initialPoint. simpl.
    apply degenerate_false in D.
    rewrite getTargetArea_square.
    replace (getM p * 0 / 2) with 0 by field.
    rewrite cosh_0, sinh_0, Rmult_0_r, Rplus_0_r, Rmult_1_r.
    rewrite sqrt_Rsqr; [reflexivity | lra].
  - destruct (consecutive_points p stepSize k pt H)
      as (_ & st & _ & _ & _ & -> & _).
    reflexivity.
Qed.

(** X10. For a non-negative cutoff, a non-negative expansion factor and a
    non-negative step size, the [radius] field does not decrease from one
    point of the result to the next. *)
Theorem profile_radius_monotone (p : JmlcParams.t) (stepSize : R) (k : nat)
    (prev pt : Point.t) :
  0 <= JmlcParams.fc p ->
  0 <= JmlcParams.T p ->
  0 <= stepSize ->
  nth_error (generateProfile p stepSize) k = Some prev ->
  nth_error (generateProfile p stepSize) (S k) = Some pt ->
  Point.radius prev <= Point.radius pt.
Proof.
  intros Hfc HT Hs Hprev Hpt.
  rewrite (radius_sqrt p stepSize k prev Hprev).
  rewrite (radius_sqrt p stepSize (S k) pt Hpt).
  destruct (point_state p stepSize k prev Hprev)
    as (_ & _ & st & Hst & _ & _ & _ & Hl & _).
  destruct (point_state p stepSize (S k) pt Hpt)
    as (_ & _ & st' & Hst' & _ & _ & _ & Hl' & _).
  rewrite Hl, Hl'.
  rewrite (state_length p stepSize k st Hst).
  rewrite (state_length p stepSize (S k) st' Hst').
  apply sqrt_le_1_alt.
  pose proof PI_RGT_0 as HPI.
  apply Rmult_le_compat_r; [apply Rlt_le, Rinv_0_lt_compat; lra |].
  apply getTargetArea_le; try assumption.
  - apply Rmult_le_pos; [apply pos_INR | exact Hs].
  - rewrite S_INR. nra.
Qed.

Lemma profile_radius_monotone_example :
  let prev := initialPoint spiralParams in
  let pt := nextPoint spiralParams 0.5 0 (initialState spiralParams) in
  (0 <= JmlcParams.fc spiralParams /\ 0 <= JmlcParams.T spiralParams
   /\ 0 <= 0.5
   /\ nth_error (generateProfile spiralParams 0.5) 0 = Some prev
   /\ nth_error (generateProfile spiralParams 0.5) 1 = Some pt)
  /\ Point.radius prev <= Point.radius pt.
Proof.
  intros prev pt.
  assert (H1 : 0 <= JmlcParams.fc spiralParams) by (simpl; lra).
  assert (H2 : 0 <= JmlcParams.T spiralParams) by (simpl; lra).
  assert (H3 : 0 <= 0.5) by lra.
  split.
  - repeat split; try assumption;
      [exact spiralParams_seed | exact spiralParams_first_point].
  - exact (profile_radius_monotone spiralParams 0.5 0 prev pt H1 H2 H3
             spiralParams_seed spiralParams_first_point).
Defined.

(** ** What the fifty passes give without any assumption *)



(** ** Progress of the spiral *)

Lemma spiral_theta (p : JmlcParams.t) (stepSize : R) (t n : nat)
    (st_t st : State.t) :
  stateAfter p stepSize t = Some st_t ->
  State.isSpiraling st_t = false ->
  spiralOf p stepSize st_t = true ->
  stateAfter p stepSize (t + n) = Some st ->
  thetaOf p stepSize st
  = State.previousAngle st + State.previousDelta st_t * 1.005 ^ n.
Proof.
  intros Ht Hphys Hsp Hst.
  destruct (nextState_transition p stepSize st_t Hphys Hsp) as (T1 & T2 & T3).
  destruct n as [| j].
  - rewrite Nat.add_0_r, Ht in Hst. injection Hst as <-.
    rewrite T1. simpl. ring.
  - destruct (after_spiral_step p stepSize t j st_t st Ht Hsp Hst)
      as (H1 & H2 & H3).
    rewrite thetaOf_spiral by exact H1.
    rewrite H2, H3, T2, T3.
    rewrite (physical_count p stepSize t st_t Ht Hphys).
    reflexivity.
Qed.

Lemma growth_pow_ge_1 (n : nat) : 1 <= 1.005 ^ n.
Proof. apply pow_R1_Rle. lra. Qed.

(** The angle reached [n + 1] iterations into the spiral. *)
Lemma spiral_angle_lower (p : JmlcParams.t) (stepSize : R) (t n : nat)
    (st_t st : State.t) :
  stateAfter p stepSize t = Some st_t ->
  State.isSpiraling st_t = false ->
  spiralOf p stepSize st_t = true ->
  0 < State.previousDelta st_t ->
  stateAfter p stepSize (t + S n) = Some st ->
  State.previousAngle st_t + INR (S n) * State.previousDelta st_t
  <= State.previousAngle st.
Proof.
  intros Ht Hphys Hsp Hb. revert st.
  induction n as [| n IH]; intros st Hst.
  - replace (t + 1)%nat with (S t) in Hst by lia.
    destruct (stateAfter_S p stepSize t st Hst) as (stk & pt & Hk & Hstep).
    rewrite Ht in Hk. injection Hk as <-.
    apply step_Some in Hstep. destruct Hstep as (-> & _).
    unfold nextState. simpl State.previousAngle.
    destruct (nextState_transition p stepSize st_t Hphys Hsp) as (T1 & _).
    rewrite T1. simpl. lra.
  - replace (t + S (S n))%nat with (S (t + S n)) in Hst by lia.
    destruct (stateAfter_S p stepSize (t + S n) st Hst)
      as (stk & pt & Hk & Hstep).
    apply step_Some in Hstep. destruct Hstep as (-> & _).
    unfold nextState. simpl State.previousAngle.
    rewrite (spiral_theta p stepSize t (S n) st_t stk Ht Hphys Hsp Hk).
    specialize (IH stk Hk).
    pose proof (growth_pow_ge_1 (S n)) as Hg.
    rewrite (S_INR (S n)).
    assert (State.previousDelta st_t
            <= State.previousDelta st_t * 1.005 ^ S n) by nra.
    lra.
Qed.

(** X12. When the transition is made with a positive base increment [b],
    the angle after [n + 1] iterations in the spiral regime is at least
    [n + 1] base increments above the angle at the transition, and, those
    iterations having run to their end, still below the rollback limit: the
    number of points the spiral adds is bounded by the rollback left over
    [b]. *)
Theorem spiral_progress (p : JmlcParams.t) (stepSize : R) (t n : nat)
    (st_t st : State.t) :
  stateAfter p stepSize t = Some st_t ->
  State.isSpiraling st_t = false ->
  spiralOf p stepSize st_t = true ->
  0 < State.previousDelta st_t ->
  stateAfter p stepSize (t + S n) = Some st ->
  State.previousAngle st_t + INR (S n) * State.previousDelta st_t
  <= State.previousAngle st
  /\ (State.previousAngle st_t + INR (S n) * State.previousDelta st_t)
     * (180 / PI)
     < JmlcParams.roundOver p - 0.005.
Proof.
  intros Ht Hphys Hsp Hb Hst.
  pose proof (spiral_angle_lower p stepSize t n st_t st Ht Hphys Hsp Hb Hst)
    as Hlow.
  split; [exact Hlow |].
  replace (t + S n)%nat with (S (t + n)) in Hst by lia.
  destruct (stateAfter_S p stepSize (t + n) st Hst) as (stk & pt & Hk & Hstep).
  apply step_Some in Hstep. destruct Hstep as (-> & _ & Ha & _).
  unfold nextState in Hlow. simpl State.previousAngle in Hlow.
  unfold EPSILON in Ha. pose proof rad_to_deg_pos as Hd.
  apply Rle_lt_trans with (thetaOf p stepSize stk * (180 / PI));
    [| exact Ha].
  apply Rmult_le_compat_r; lra.
Qed.

Lemma spiral_progress_example :
  (stateAfter steepParams 1 1 = Some steepState1
   /\ State.isSpiraling steepState1 = false
   /\ spiralOf steepParams 1 steepState1 = true
   /\ 0 < State.previousDelta steepState1
   /\ stateAfter steepParams 1 (1 + 1) = Some steepState2)
  /\ State.previousAngle steepState1 + INR 1 * State.previousDelta steepState1
     <= State.previousAngle steepState2.
Proof.
  destruct steep_state1_fields as (_ & _ & _ & Ha & Hd).
  assert (Hb : 0 < State.previousDelta steepState1).
  { rewrite Hd. pose proof PI_RGT_0. lra. }
  split.
  - repeat split;
      [exact steep_stateAfter1 | exact (proj1 steep_transition)
       | exact (proj2 steep_transition) | exact Hb | exact steep_stateAfter2].
  - exact (proj1 (spiral_progress steepParams 1 1 0 steepState1 steepState2
                    steep_stateAfter1 (proj1 steep_transition)
                    (proj2 steep_transition) Hb steep_stateAfter2)).
Defined.

(** * Further properties of the exports *)

Lemma flatten_app (a b : list string) :
  flatten (a ++ b) = (flatten a ++ flatten b)%string.
Proof.
  induction a as [| r a IH]; simpl; [reflexivity |].
  rewrite IH, append_assoc. reflexivity.
Qed.

Section LogFacts.

Variable Number_toString : R -> string.

Lemma generateLog_fold (points : list Point.t) (csv : string) :
  fold_left (fun csv p => (csv ++ logRow Number_toString p)%string)
    points csv
  = (csv ++ flatten (map (logRow Number_toString) points))%string.
Proof.
  revert csv. induction points as [| p points IH]; intros csv; simpl.
  - rewrite append_empty_r. reflexivity.
  - rewrite IH, append_assoc. reflexivity.
Qed.

Lemma generateLog_flat (points : list Point.t) :
  generateLog Number_toString points
  = (logHeader ++ flatten (map (logRow Number_toString) points))%string.
Proof. unfold generateLog. apply generateLog_fold. Qed.

Lemma generateCSV_flat (points : list Point.t) :
  generateCSV Number_toString points
  = (csvHeader ++ flatten (map (csvRow Number_toString) points))%string.
Proof. unfold generateCSV. apply generateCSV_fold. Qed.

(** X13. [generateLog] gives its header line followed by one row per point,
    in order, the header alone for no points; a row is the index, the arc
    length and the geometric radius [y] with two decimals, the angle with
    three, deltaAngle and the growth figure with four.  The log of two
    sequences one after the other is the log of the first followed by the
    rows of the second, and so is the coordinate export. *)
Theorem generateLog_rows (points more : list Point.t) :
  generateLog Number_toString points
  = (("Index,Length (mm),Radius (mm),Angle (deg),Delta Angle (deg),Growth (%)"
        ++ newline)
       ++ flatten (map (logRow Number_toString) points))%string
  /\ (forall p : Point.t,
        logRow Number_toString p
        = (indexText (Point.index p) ++ ","
             ++ toFixed Number_toString (Point.length p) 2 ++ ","
             ++ toFixed Number_toString (Point.y p) 2 ++ ","
             ++ toFixed Number_toString (Point.angle p) 3 ++ ","
             ++ toFixed Number_toString (Point.deltaAngle p) 4 ++ ","
             ++ toFixed Number_toString (growthOf p) 4 ++ newline)%string)
  /\ generateLog Number_toString (points ++ more)
     = (generateLog Number_toString points
          ++ flatten (map (logRow Number_toString) more))%string
  /\ generateCSV Number_toString (points ++ more)
     = (generateCSV Number_toString points
          ++ flatten (map (csvRow Number_toString) more))%string.
Proof.
  split; [apply generateLog_flat |]. split; [reflexivity |].
  split.
  - rewrite !generateLog_flat, map_app, flatten_app, append_assoc.
    reflexivity.
  - rewrite !generateCSV_flat, map_app, flatten_app, append_assoc.
    reflexivity.
Qed.

Lemma toFixed_0_2 : toFixed Number_toString 0 2 = "0.00"%string.
Proof.
  unfold toFixed.
  destruct (Rlt_dec 0 0) as [H | _]; [lra |].
  destruct (Rle_dec (10 ^ 21) 0) as [H | _]; [simpl in H; lra |].
  replace (Zfloor (0 * 10 ^ 2 + 1 / 2)) with 0%Z; [reflexivity |].
  symmetry. apply Zfloor_eq. simpl. lra.
Qed.

Lemma toFixed_0_3 : toFixed Number_toString 0 3 = "0.000"%string.
Proof.
  unfold toFixed.
  destruct (Rlt_dec 0 0) as [H | _]; [lra |].
  destruct (Rle_dec (10 ^ 21) 0) as [H | _]; [simpl in H; lra |].
  replace (Zfloor (0 * 10 ^ 3 + 1 / 2)) with 0%Z; [reflexivity |].
  symmetry. apply Zfloor_eq. simpl. lra.
Qed.

Lemma toFixed_0_4 : toFixed Number_toString 0 4 = "0.0000"%string.
Proof.
  unfold toFixed.
  destruct (Rlt_dec 0 0) as [H | _]; [lra |].
  destruct (Rle_dec (10 ^ 21) 0) as [H | _]; [simpl in H; lra |].
  replace (Zfloor (0 * 10 ^ 4 + 1 / 2)) with 0%Z; [reflexivity |].
  symmetry. apply Zfloor_eq. simpl. lra.
Qed.

Lemma growthOf_initialPoint (p : JmlcParams.t) : growthOf (initialPoint p) = 0.
Proof.
  unfold growthOf, initialPoint, orOne. simpl.
  destruct (Req_dec_T (0 - 0) 0) as [_ | H]; [field | lra].
Qed.

(** X14. The exports of a generated profile.  For degenerate parameters
    both exports are their header line alone.  Otherwise the coordinate
    export continues with the seed row [0.0000,<d0/20>,0.0000] and the log
    with the seed row [0,0.00,<d0/2>,0.000,0.0000,0.0000], followed by the
    rows of the later points. *)
Theorem profile_exports (p : JmlcParams.t) (stepSize : R) :
  (getM p = 0 \/ JmlcParams.d0 p <= 0 ->
   generateCSV Number_toString (generateProfile p stepSize)
   = ("X (cm),Y (cm),Z (cm)" ++ newline)%string
   /\ generateLog Number_toString (generateProfile p stepSize)
      = logHeader)
  /\ (getM p <> 0 -> 0 < JmlcParams.d0 p ->
      exists later : list Point.t,
        generateProfile p stepSize = initialPoint p :: later
        /\ generateCSV Number_toString (generateProfile p stepSize)
           = (("X (cm),Y (cm),Z (cm)" ++ newline)
                ++ ("0.0000,"
                      ++ toFixed Number_toString (JmlcParams.d0 p / 2 / 10) 4
                      ++ ",0.0000" ++ newline)
                ++ flatten (map (csvRow Number_toString) later))%string
        /\ generateLog Number_toString (generateProfile p stepSize)
           = (logHeader
                ++ ("0,0.00,"
                      ++ toFixed Number_toString (JmlcParams.d0 p / 2) 2
                      ++ ",0.000,0.0000,0.0000" ++ newline)
                ++ flatten (map (logRow Number_toString) later))%string).
Proof.
  split.
  - intros Hdeg. apply degenerate_true in Hdeg.
    rewrite generateProfile_degenerate by exact Hdeg.
    split; reflexivity.
  - intros Hm Hd.
    assert (D : degenerate p = false) by (apply degenerate_false; auto).
    rewrite generateProfile_regular by exact D.
    exists (loop p stepSize MAX_STEPS 0 (initialState p)).
    split; [reflexivity |].
    rewrite generateCSV_flat, generateLog_flat.
    cbn [map flatten].
    split.
    + f_equal. f_equal. unfold csvRow, initialPoint. simpl.
      replace (0 / 10) with 0 by field.
      rewrite toFixed_0_4. reflexivity.
    + f_equal. f_equal. unfold logRow.
      rewrite growthOf_initialPoint. unfold initialPoint. simpl.
      rewrite toFixed_0_2, toFixed_0_3, toFixed_0_4. reflexivity.
Qed.

End LogFacts.

Lemma orOne_nonzero (a : R) : orOne a <> 0.
Proof.
  unfold orOne. destruct (Req_dec_T a 0); [lra | assumption].
Qed.

(** X15. The growth figure of the log on a generated profile.  For a point
    past the seed, [angle - deltaAngle] is the angle of the point before
    it, so the figure is [deltaAngle] relative to the previous angle, in
    percent; when the previous angle is zero, as it is right after the
    seed, the divisor is 1 and the figure is [deltaAngle * 100]. *)
Theorem profile_growth (p : JmlcParams.t) (stepSize : R) (k : nat)
    (prev pt : Point.t) :
  nth_error (generateProfile p stepSize) k = Some prev ->
  nth_error (generateProfile p stepSize) (S k) = Some pt ->
  Point.angle pt - Point.deltaAngle pt = Point.angle prev
  /\ (Point.angle prev <> 0 ->
      growthOf pt = Point.deltaAngle pt / Point.angle prev * 100)
  /\ (Point.angle prev = 0 -> growthOf pt = Point.deltaAngle pt * 100)
  /\ (k = 0%nat -> growthOf pt = Point.angle pt * 100).
Proof.
  intros Hprev Hpt.
  destruct (consecutive_points p stepSize k pt Hpt)
    as (prev' & st & Hprev' & Hst & (_ & _ & _ & _ & Ha) & -> & _).
  rewrite Hprev in Hprev'. injection Hprev' as <-.
  assert (E : Point.angle (nextPoint p stepSize k st)
              - Point.deltaAngle (nextPoint p stepSize k st)
              = Point.angle prev).
  { unfold nextPoint. simpl. rewrite Ha. ring. }
  assert (Hzero : Point.angle prev = 0 ->
                  growthOf (nextPoint p stepSize k st)
                  = Point.deltaAngle (nextPoint p stepSize k st) * 100).
  { intros H0. unfold growthOf. rewrite E, H0. unfold orOne.
    destruct (Req_dec_T 0 0) as [_ | H]; [field | lra]. }
  split; [exact E |]. split; [| split; [exact Hzero |]].
  - intros Hnz. unfold growthOf. rewrite E. unfold orOne.
    destruct (Req_dec_T (Point.angle prev) 0) as [H | _];
      [contradiction | reflexivity].
  - intros ->.
    assert (H0 : Point.angle prev = 0).
    { rewrite initialState_after in Hst. injection Hst as <-.
      rewrite Ha. simpl. ring. }
    rewrite (Hzero H0). f_equal. rewrite H0 in E. lra.
Qed.

Lemma profile_growth_example :
  let prev := initialPoint spiralParams in
  let pt := nextPoint spiralParams 0.5 0 (initialState spiralParams) in
  (nth_error (generateProfile spiralParams 0.5) 0 = Some prev
   /\ nth_error (generateProfile spiralParams 0.5) 1 = Some pt)
  /\ growthOf pt = Point.angle pt * 100.
Proof.
  intros prev pt.
  split; [split; [exact spiralParams_seed | exact spiralParams_first_point] |].
  exact (proj2 (proj2 (proj2 (profile_growth spiralParams 0.5 0 prev pt
                                spiralParams_seed spiralParams_first_point)))
           eq_refl).
Defined.

(** * The derived data of the page *)

Lemma growBounds_spec (b : Bounds.t) (p : Point.t) :
  let b' := growBounds b p in
  Bounds.minX b' <= Bounds.minX b /\ Bounds.minX b' <= Point.x p
  /\ Bounds.maxX b <= Bounds.maxX b' /\ Point.x p <= Bounds.maxX b'
  /\ Bounds.maxY b <= Bounds.maxY b' /\ Point.y p <= Bounds.maxY b'
  /\ (Bounds.minX b' = Bounds.minX b \/ Bounds.minX b' = Point.x p)
  /\ (Bounds.maxX b' = Bounds.maxX b \/ Bounds.maxX b' = Point.x p)
  /\ (Bounds.maxY b' = Bounds.maxY b \/ Bounds.maxY b' = Point.y p).
Proof.
  unfold growBounds, Rltb. simpl.
  destruct (Rlt_dec (Point.x p) (Bounds.minX b)),
    (Rlt_dec (Bounds.maxX b) (Point.x p)),
    (Rlt_dec (Bounds.maxY b) (Point.y p));
    repeat split; try lra; auto.
Qed.

(** The bounds after the loop over [l]: they enclose the starting bounds and
    every point met, and each is the starting bound or a coordinate of a
    point met. *)
Lemma fold_growBounds (l : list Point.t) (b : Bounds.t) :
  let b' := fold_left growBounds l b in
  (Bounds.minX b' <= Bounds.minX b /\ Bounds.maxX b <= Bounds.maxX b'
   /\ Bounds.maxY b <= Bounds.maxY b')
  /\ (forall p, In p l ->
        Bounds.minX b' <= Point.x p <= Bounds.maxX b'
        /\ Point.y p <= Bounds.maxY b')
  /\ (Bounds.minX b' = Bounds.minX b
      \/ exists p, In p l /\ Point.x p = Bounds.minX b')
  /\ (Bounds.maxX b' = Bounds.maxX b
      \/ exists p, In p l /\ Point.x p = Bounds.maxX b')
  /\ (Bounds.maxY b' = Bounds.maxY b
      \/ exists p, In p l /\ Point.y p = Bounds.maxY b').
Proof.
  revert b. induction l as [| q l IH]; intros b; cbn zeta.
  - simpl. repeat split; try lra; try tauto; auto.
  - cbn [fold_left].
    destruct (IH (growBounds b q))
      as ((A1 & A2 & A3) & Hin & M1 & M2 & M3).
    destruct (growBounds_spec b q)
      as (G1 & G2 & G3 & G4 & G5 & G6 & E1 & E2 & E3).
    cbn zeta in *.
    split; [repeat split; lra |]. split.
    + intros p0 [<- | Hp]; [repeat split; lra | apply Hin; exact Hp].
    + repeat split.
      * destruct M1 as [M | (p0 & Hp & M)];
          [| right; exists p0; split; [right; exact Hp | exact M]].
        destruct E1 as [E | E]; [left; congruence |].
        right. exists q. split; [left; reflexivity | congruence].
      * destruct M2 as [M | (p0 & Hp & M)];
          [| right; exists p0; split; [right; exact Hp | exact M]].
        destruct E2 as [E | E]; [left; congruence |].
        right. exists q. split; [left; reflexivity | congruence].
      * destruct M3 as [M | (p0 & Hp & M)];
          [| right; exists p0; split; [right; exact Hp | exact M]].
        destruct E3 as [E | E]; [left; congruence |].
        right. exists q. split; [left; reflexivity | congruence].
Qed.

(** X16. The bounding box of the page.  For no points it is all zeros.
    Otherwise every point has its [x] between [minX] and [maxX] and its [y]
    at most [maxY], and each of the three bounds is attained by a point. *)
Theorem boundingBox_spec (calculatedPoints : list Point.t) :
  let b := boundingBox calculatedPoints in
  (calculatedPoints = [] -> b = Bounds.mk 0 0 0)
  /\ (forall p, In p calculatedPoints ->
        Bounds.minX b <= Point.x p <= Bounds.maxX b
        /\ Point.y p <= Bounds.maxY b)
  /\ (calculatedPoints <> [] ->
      (exists p, In p calculatedPoints /\ Point.x p = Bounds.minX b)
      /\ (exists p, In p calculatedPoints /\ Point.x p = Bounds.maxX b)
      /\ (exists p, In p calculatedPoints /\ Point.y p = Bounds.maxY b)).
Proof.
  cbn zeta. destruct calculatedPoints as [| p0 l].
  - split; [reflexivity |]. split; [intros p [] | congruence].
  - unfold boundingBox.
    destruct (fold_growBounds (p0 :: l)
                (Bounds.mk (Point.x p0) (Point.x p0) (Point.y p0)))
      as (_ & Hin & M1 & M2 & M3).
    cbn zeta in *.
    split; [discriminate |]. split; [exact Hin |].
    intros _. repeat split.
    + destruct M1 as [M | M]; [| exact M].
      exists p0. split; [left; reflexivity | symmetry; exact M].
    + destruct M2 as [M | M]; [| exact M].
      exists p0. split; [left; reflexivity | symmetry; exact M].
    + destruct M3 as [M | M]; [| exact M].
      exists p0. split; [left; reflexivity | symmetry; exact M].
Qed.

(** ** Downsampling *)

Lemma filterIndex_incl {A : Type} (keep : nat -> bool) (i : nat)
    (l : list A) :
  incl (filterIndex keep i l) l.
Proof.
  revert i. induction l as [| a l IH]; intros i; simpl.
  - apply incl_refl.
  - destruct (keep i).
    + apply incl_cons; [left; reflexivity |].
      apply incl_tl. apply IH.
    + apply incl_tl. apply IH.
Qed.

Lemma filterIndex_head {A : Type} (keep : nat -> bool) (i : nat)
    (l : list A) :
  keep i = true -> hd_error (filterIndex keep i l) = hd_error l.
Proof.
  intros H. destruct l as [| a l]; simpl; [reflexivity |].
  rewrite H. reflexivity.
Qed.

Lemma ceilDiv_step (step i : nat) :
  (1 <= step)%nat ->
  ceilDiv (S i) step
  = if (i mod step =? 0)%nat then S (ceilDiv i step) else ceilDiv i step.
Proof.
  intros Hs. unfold ceilDiv.
  pose proof (Nat.div_mod_eq i step) as Hdm.
  pose proof (Nat.mod_upper_bound i step ltac:(lia)) as Hub.
  set (q := (i / step)%nat) in *. set (r := (i mod step)%nat) in *.
  destruct (Nat.eqb_spec r 0) as [Hr | Hr].
  - assert (E1 : ((S i + step - 1) / step = S q)%nat).
    { symmetry. apply (Nat.div_unique _ _ _ 0%nat); lia. }
    assert (E2 : ((i + step - 1) / step = q)%nat).
    { symmetry. apply (Nat.div_unique _ _ _ (step - 1)%nat); lia. }
    rewrite E1, E2. reflexivity.
  - assert (E1 : ((S i + step - 1) / step = S q)%nat).
    { symmetry. apply (Nat.div_unique _ _ _ r); lia. }
    assert (E2 : ((i + step - 1) / step = S q)%nat).
    { symmetry. apply (Nat.div_unique _ _ _ (r - 1)%nat); lia. }
    rewrite E1, E2. reflexivity.
Qed.

(** Keeping every [step]-th position, from position [i] on, keeps as many
    elements as there are multiples of [step] among the positions. *)
Lemma filterIndex_mod_length {A : Type} (step i : nat) (l : list A) :
  (1 <= step)%nat ->
  (List.length (filterIndex (fun j => (j mod step =? 0)%nat) i l)
   + ceilDiv i step
   = ceilDiv (i + List.length l) step)%nat.
Proof.
  intros Hs. revert i. induction l as [| a l IH]; intros i; simpl.
  - rewrite Nat.add_0_r. reflexivity.
  - replace (i + S (List.length l))%nat with (S i + List.length l)%nat by lia.
    rewrite <- (IH (S i)). rewrite (ceilDiv_step step i Hs).
    destruct (i mod step =? 0)%nat; simpl; lia.
Qed.

Lemma ceilDiv_0 (step : nat) : (1 <= step)%nat -> ceilDiv 0 step = 0%nat.
Proof.
  intros Hs. unfold ceilDiv. apply Nat.div_small. lia.
Qed.

Lemma ceilDiv_upper (n d : nat) :
  (1 <= d)%nat -> (n <= d * ceilDiv n d)%nat.
Proof.
  intros Hd. unfold ceilDiv.
  pose proof (Nat.div_mod_eq (n + d - 1) d) as Hdm.
  pose proof (Nat.mod_upper_bound (n + d - 1) d ltac:(lia)) as Hub.
  nia.
Qed.

Lemma ceilDiv_le (n step c : nat) :
  (1 <= step)%nat -> (n <= c * step)%nat -> (ceilDiv n step <= c)%nat.
Proof.
  intros Hs Hn. unfold ceilDiv.
  apply Nat.lt_succ_r. apply Nat.Div0.div_lt_upper_bound. nia.
Qed.

Lemma ceilOrOne_spec (n d : nat) :
  (1 <= d)%nat ->
  (1 <= ceilOrOne n d)%nat /\ (n <= d * ceilOrOne n d)%nat.
Proof.
  intros Hd. pose proof (ceilDiv_upper n d Hd) as H.
  unfold ceilOrOne. fold (ceilDiv n d).
  destruct (ceilDiv n d) as [| c]; lia.
Qed.

(** Keeping every [ceilOrOne n d]-th of [n] elements keeps at most [d]. *)
Lemma downsample_length {A : Type} (d : nat) (l : list A) :
  (1 <= d)%nat ->
  (List.length
     (filterIndex
        (fun j => (j mod ceilOrOne (List.length l) d =? 0)%nat) 0 l)
   <= d)%nat.
Proof.
  intros Hd.
  destruct (ceilOrOne_spec (List.length l) d Hd) as (H1 & H2).
  pose proof (filterIndex_mod_length (ceilOrOne (List.length l) d) 0 l H1)
    as E.
  rewrite (ceilDiv_0 _ H1), Nat.add_0_r, Nat.add_0_l in E. rewrite E.
  apply ceilDiv_le; [exact H1 | lia].
Qed.

Lemma hd_firstn {A : Type} (k : nat) (l : list A) :
  (1 <= k)%nat -> hd_error (firstn k l) = hd_error l.
Proof.
  intros Hk. destruct k as [| k]; [lia |].
  destruct l; reflexivity.
Qed.

Lemma chart_map_point (l : list Point.t) :
  map ChartPoint.point (map (fun p => ChartPoint.mk p (- Point.y p)) l) = l.
Proof.
  rewrite map_map. simpl. apply map_id.
Qed.

(** X17. The series of the profile chart never has more than 500 points.
    Each of its points is a point of the profile with the mirror ordinate
    [negY = - y].  A profile of at most 500 points is charted whole; of a
    longer one the last 200 points are kept as they are, preceded by at
    most 300 points picked from the rest, the first point among them. *)
Theorem chartData_spec (calculatedPoints : list Point.t) :
  let totalPoints := List.length calculatedPoints in
  (List.length (chartData calculatedPoints) <= 500)%nat
  /\ (forall c, In c (chartData calculatedPoints) ->
        In (ChartPoint.point c) calculatedPoints
        /\ ChartPoint.negY c = - Point.y (ChartPoint.point c))
  /\ ((totalPoints <= 500)%nat ->
      map ChartPoint.point (chartData calculatedPoints) = calculatedPoints)
  /\ ((500 < totalPoints)%nat ->
      exists body : list Point.t,
        map ChartPoint.point (chartData calculatedPoints)
        = body ++ skipn (totalPoints - 200) calculatedPoints
        /\ (List.length body <= 300)%nat
        /\ List.length (skipn (totalPoints - 200) calculatedPoints) = 200%nat
        /\ hd_error body = hd_error calculatedPoints
        /\ incl body (firstn (totalPoints - 200) calculatedPoints)).
Proof.
  cbn zeta. unfold chartData. rewrite length_map, chart_map_point.
  assert (Hmem : forall c,
             In c (map (fun p => ChartPoint.mk p (- Point.y p))
                     (chartPoints calculatedPoints)) ->
             In (ChartPoint.point c) (chartPoints calculatedPoints)
             /\ ChartPoint.negY c = - Point.y (ChartPoint.point c)).
  { intros c Hc. apply in_map_iff in Hc. destruct Hc as (q & <- & Hq).
    simpl. auto. }
  unfold chartPoints in *. cbn zeta in *.
  change (PRESERVED_TAIL_POINTS + targetBodyPoints)%nat with 500%nat in *.
  unfold PRESERVED_TAIL_POINTS, targetBodyPoints in *.
  set (total := List.length calculatedPoints) in *.
  destruct (Nat.leb_spec total 500) as [Hle | Hgt].
  - split; [exact Hle |]. split; [exact Hmem |].
    split; [reflexivity | lia].
  - set (bodyPoints := firstn (total - 200) calculatedPoints) in *.
    set (tailPoints := skipn (total - 200) calculatedPoints) in *.
    set (body := filterIndex
                   (fun index =>
                      (index mod ceilOrOne (List.length bodyPoints) 300 =? 0)
                        %nat) 0 bodyPoints) in *.
    assert (Hbody : (List.length body <= 300)%nat)
      by (apply downsample_length; lia).
    assert (Htail : List.length tailPoints = 200%nat).
    { unfold tailPoints. rewrite length_skipn. fold total. lia. }
    assert (Hincl : incl body bodyPoints) by apply filterIndex_incl.
    split; [rewrite length_app; lia |].
    split.
    + intros c Hc. destruct (Hmem c Hc) as (Hin & Hneg).
      split; [| exact Hneg].
      apply in_app_or in Hin. destruct Hin as [Hin | Hin].
      * apply Hincl in Hin. unfold bodyPoints in Hin.
        rewrite <- (firstn_skipn (total - 200) calculatedPoints).
        apply in_or_app. left. exact Hin.
      * rewrite <- (firstn_skipn (total - 200) calculatedPoints).
        apply in_or_app. right. exact Hin.
    + split; [lia |]. intros _.
      exists body. split; [reflexivity |]. split; [exact Hbody |].
      split; [exact Htail |]. split; [| exact Hincl].
      unfold body.
      rewrite filterIndex_head
        by (rewrite Nat.Div0.mod_0_l; reflexivity).
      unfold bodyPoints. apply hd_firstn. lia.
Qed.

Lemma filterIndex_length_or {A : Type} (k1 k2 : nat -> bool) (i : nat)
    (l : list A) :
  (List.length (filterIndex (fun j => k1 j || k2 j) i l)
   <= List.length (filterIndex k1 i l) + List.length (filterIndex k2 i l))%nat.
Proof.
  revert i. induction l as [| a l IH]; intros i; simpl; [lia |].
  specialize (IH (S i)).
  destruct (k1 i), (k2 i); simpl; lia.
Qed.

Lemma filterIndex_length_eq {A : Type} (c i : nat) (l : list A) :
  (List.length (filterIndex (fun j => (j =? c)%nat) i l) <= 1)%nat
  /\ ((c < i)%nat -> filterIndex (fun j => (j =? c)%nat) i l = []).
Proof.
  revert i. induction l as [| a l IH]; intros i; simpl.
  - split; [lia | reflexivity].
  - destruct (IH (S i)) as (H1 & H2).
    destruct (Nat.eqb_spec i c) as [E | E].
    + split; [| lia]. simpl. rewrite H2 by lia. simpl. lia.
    + split; [exact H1 |]. intros Hc. apply H2. lia.
Qed.

(** When the last position is kept, the kept elements end with the last
    element. *)
Lemma filterIndex_last {A : Type} (keep : nat -> bool) (i : nat)
    (l : list A) :
  l <> [] ->
  keep (i + List.length l - 1)%nat = true ->
  filterIndex keep i l <> []
  /\ forall d d' : A, last (filterIndex keep i l) d = last l d'.
Proof.
  revert i. induction l as [| a l IH]; intros i Hne Hk; [congruence |].
  destruct l as [| b l].
  - simpl in *. replace (i + 1 - 1)%nat with i in Hk by lia.
    rewrite Hk. split; [discriminate | reflexivity].
  - assert (Hk' : keep (S i + List.length (b :: l) - 1)%nat = true).
    { simpl List.length in *.
      replace (S i + S (List.length l) - 1)%nat
        with (i + S (S (List.length l)) - 1)%nat by lia.
      exact Hk. }
    destruct (IH (S i) ltac:(discriminate) Hk') as (Hn & Hl).
    change (filterIndex keep i (a :: b :: l))
      with (if keep i then a :: filterIndex keep (S i) (b :: l)
            else filterIndex keep (S i) (b :: l)).
    change (last (a :: b :: l)) with (last (b :: l)).
    destruct (keep i).
    + split; [discriminate |]. intros d d'.
      destruct (filterIndex keep (S i) (b :: l)) as [| c r] eqn:E;
        [congruence |].
      change (last (a :: c :: r) d) with (last (c :: r) d). apply Hl.
    + split; [exact Hn | exact Hl].
Qed.

(** X18. The series of the radial chart has at most 1001 points, all of
    them points of the profile; it starts with the first point of the
    profile and ends with its last. *)
Theorem spiralData_spec (calculatedPoints : list Point.t) :
  (List.length (spiralData calculatedPoints) <= 1001)%nat
  /\ incl (spiralData calculatedPoints) calculatedPoints
  /\ hd_error (spiralData calculatedPoints) = hd_error calculatedPoints
  /\ lastPoint (spiralData calculatedPoints) = lastPoint calculatedPoints.
Proof.
  unfold spiralData. cbn zeta.
  set (total := List.length calculatedPoints).
  set (step := ceilOrOne total 1000).
  split; [| split; [apply filterIndex_incl | split]].
  - pose proof (filterIndex_length_or
                  (fun j => (j mod step =? 0)%nat)
                  (fun j => (j =? total - 1)%nat) 0 calculatedPoints) as Hor.
    pose proof (downsample_length 1000 calculatedPoints ltac:(lia)) as Hd.
    fold total in Hd. fold step in Hd.
    destruct (filterIndex_length_eq (total - 1) 0 calculatedPoints)
      as (He & _).
    cbn beta in Hor. lia.
  - apply filterIndex_head.
    rewrite Nat.Div0.mod_0_l. reflexivity.
  - destruct calculatedPoints as [| a l]; [reflexivity |].
    destruct (filterIndex_last
                (fun index =>
                   (index mod step =? 0)%nat || (index =? total - 1)%nat)
                0 (a :: l)) as (Hn & Hl).
    + discriminate.
    + rewrite Nat.add_0_l. fold total. rewrite Nat.eqb_refl.
      apply orb_true_r.
    + unfold lastPoint at 1.
      destruct (filterIndex _ 0 (a :: l)) as [| c r] eqn:E; [congruence |].
      unfold lastPoint. f_equal. apply Hl.
Qed.

(** ** The axis domains *)

Lemma domains_shape (b : Bounds.t) :
  let d := domains b in
  Domains.xHigh d - Domains.xLow d
  = 2 * (Domains.yHigh d - Domains.yLow d)
  /\ Domains.xLow d + Domains.xHigh d = Bounds.minX b + Bounds.maxX b
  /\ Domains.yLow d = - Domains.yHigh d.
Proof.
  unfold domains, CHART_ASPECT. cbn zeta.
  destruct (js_gt _ 2.0); simpl; repeat split; lra.
Qed.

Lemma domains_contain (b : Bounds.t) :
  Bounds.minX b <= Bounds.maxX b ->
  0 <= Bounds.maxY b ->
  let d := domains b in
  Domains.xLow d <= Bounds.minX b /\ Bounds.maxX b <= Domains.xHigh d
  /\ Domains.yLow d <= - Bounds.maxY b /\ Bounds.maxY b <= Domains.yHigh d.
Proof.
  intros Hx Hy. unfold domains, CHART_ASPECT, js_div. cbn zeta.
  set (dw := Bounds.maxX b - Bounds.minX b).
  set (dh := Bounds.maxY b * 2).
  assert (Hdw : 0 <= dw) by (unfold dw; lra).
  assert (Hdh : 0 <= dh) by (unfold dh; lra).
  destruct (Req_dec_T dh 0) as [Hz | Hnz].
  - destruct (Rlt_dec 0 dw) as [Hpos | Hnpos]; simpl.
    + unfold dw, dh in *. repeat split; lra.
    + destruct (Rlt_dec dw 0) as [Hneg | _]; [lra |]. simpl.
      unfold dw, dh in *. repeat split; lra.
  - assert (Hdhp : 0 < dh) by lra.
    simpl. unfold Rltb.
    destruct (Rlt_dec 2.0 (dw / dh)) as [Hgt | Hle]; simpl.
    + assert (H : 2 * dh < dw).
      { apply (Rmult_lt_compat_r dh) in Hgt; [| exact Hdhp].
        unfold Rdiv in Hgt. rewrite Rmult_assoc, Rinv_l, Rmult_1_r in Hgt
          by lra. lra. }
      unfold dw, dh in *. repeat split; lra.
    + assert (H : dw <= 2 * dh).
      { apply Rnot_lt_le in Hle.
        apply (Rmult_le_compat_r dh) in Hle; [| lra].
        unfold Rdiv in Hle. rewrite Rmult_assoc, Rinv_l, Rmult_1_r in Hle
          by lra. lra. }
      unfold dw, dh in *. repeat split; lra.
Qed.

(** X19. The axis domains are twice as wide as they are high, the
    horizontal one centred on the bounding box and the vertical one on
    zero; for a bounding box with [minX <= maxX] and [maxY >= 0] they
    contain the box and its mirror image, with the quotient of a flat box
    (a height of zero) taken as JavaScript gives it. *)
Theorem domains_spec (b : Bounds.t) :
  let d := domains b in
  Domains.xHigh d - Domains.xLow d
  = 2 * (Domains.yHigh d - Domains.yLow d)
  /\ Domains.xLow d + Domains.xHigh d = Bounds.minX b + Bounds.maxX b
  /\ Domains.yLow d = - Domains.yHigh d
  /\ (Bounds.minX b <= Bounds.maxX b ->
      0 <= Bounds.maxY b ->
      Domains.xLow d <= Bounds.minX b /\ Bounds.maxX b <= Domains.xHigh d
      /\ Domains.yLow d <= - Bounds.maxY b
      /\ Bounds.maxY b <= Domains.yHigh d).
Proof.
  cbn zeta. destruct (domains_shape b) as (H1 & H2 & H3).
  split; [exact H1 |]. split; [exact H2 |]. split; [exact H3 |].
  intros Hx Hy. apply (domains_contain b Hx Hy).
Qed.

(** ** The page on a generated profile *)

Lemma boundingBox_in (pts : list Point.t) (p : Point.t) :
  In p pts ->
  Bounds.minX (boundingBox pts) <= Point.x p <= Bounds.maxX (boundingBox pts)
  /\ Point.y p <= Bounds.maxY (boundingBox pts).
Proof.
  destruct pts as [| p0 l]; [intros [] |]. intros Hin.
  unfold boundingBox.
  destruct (fold_growBounds (p0 :: l)
              (Bounds.mk (Point.x p0) (Point.x p0) (Point.y p0)))
    as (_ & H & _).
  apply H. exact Hin.
Qed.

Lemma profile_in_y_pos (p : JmlcParams.t) (stepSize : R) (pt : Point.t) :
  0 <= stepSize ->
  In pt (generateProfile p stepSize) ->
  0 < Point.y pt.
Proof.
  intros Hs Hin. apply In_nth_error in Hin. destruct Hin as (k & Hk).
  destruct (point_state p stepSize k pt Hk)
    as (D & _ & st & Hst & _ & _ & Hy & _).
  rewrite Hy. apply (state_y_pos p stepSize k st D Hs Hst).
Qed.

(** X20. On the page, with a non-negative step size (the page uses 0.5),
    the axis domains computed from the bounding box of the generated
    profile contain every point of the profile and its mirror image. *)
Theorem page_domains_contain (p : JmlcParams.t) (stepSize : R)
    (pt : Point.t) :
  0 <= stepSize ->
  In pt (generateProfile p stepSize) ->
  let d := domains (boundingBox (generateProfile p stepSize)) in
  Domains.xLow d <= Point.x pt <= Domains.xHigh d
  /\ Domains.yLow d <= - Point.y pt
  /\ - Point.y pt <= Point.y pt
  /\ Point.y pt <= Domains.yHigh d.
Proof.
  intros Hs Hin. cbn zeta.
  pose proof (profile_in_y_pos p stepSize pt Hs Hin) as Hy.
  destruct (boundingBox_in _ pt Hin) as ((B1 & B2) & B3).
  destruct (domains_contain (boundingBox (generateProfile p stepSize)))
    as (D1 & D2 & D3 & D4); [lra | lra |].
  repeat split; lra.
Qed.

Lemma page_domains_contain_example :
  let pt := initialPoint spiralParams in
  (0 <= 0.5 /\ In pt (generateProfile spiralParams 0.5))
  /\ let d := domains (boundingBox (generateProfile spiralParams 0.5)) in
     Domains.xLow d <= Point.x pt <= Domains.xHigh d
     /\ Domains.yLow d <= - Point.y pt
     /\ - Point.y pt <= Point.y pt
     /\ Point.y pt <= Domains.yHigh d.
Proof.
  intros pt.
  assert (Hs : 0 <= 0.5) by lra.
  assert (Hin : In pt (generateProfile spiralParams 0.5)).
  { rewrite generateProfile_regular by exact spiralParams_regular.
    left. reflexivity. }
  split; [split; assumption |].
  exact (page_domains_contain spiralParams 0.5 pt Hs Hin).
Defined.

Lemma last_indep {A : Type} (l : list A) (d d' : A) :
  l <> [] -> last l d = last l d'.
Proof.
  induction l as [| a l IH]; [congruence |]. intros _.
  destruct l as [| b l]; [reflexivity |].
  change (last (b :: l) d = last (b :: l) d'). apply IH. discriminate.
Qed.

Lemma last_in {A : Type} (a : A) (l : list A) : In (last (a :: l) a) (a :: l).
Proof.
  revert a. induction l as [| b l IH]; intros a; [left; reflexivity |].
  change (last (a :: b :: l) a) with (last (b :: l) a).
  right. rewrite (last_indep (b :: l) a b) by discriminate. apply IH.
Qed.

Lemma last_nth_error {A : Type} (a : A) (l : list A) :
  nth_error (a :: l) (List.length l) = Some (last (a :: l) a).
Proof.
  revert a. induction l as [| b l IH]; intros a; [reflexivity |].
  change (last (a :: b :: l) a) with (last (b :: l) a).
  rewrite (last_indep (b :: l) a b) by discriminate.
  simpl List.length. cbn [nth_error]. apply IH.
Qed.

(** X21. The key dimensions of the page.  For an empty profile the mouth
    diameter and the depth are zero.  Otherwise the depth is not negative
    and [minX] is not positive, the profile starting at [x = 0]; with a
    non-negative step size the mouth diameter is positive and at most the
    full height [2 maxY] of the bounding box. *)
Theorem page_dimensions (p : JmlcParams.t) (stepSize : R) :
  let points := generateProfile p stepSize in
  (points = [] -> mouthDiameter points = 0 /\ physicalDepth points = 0)
  /\ (points <> [] ->
      0 <= physicalDepth points
      /\ Bounds.minX (boundingBox points) <= 0
      /\ (0 <= stepSize ->
          0 < mouthDiameter points
          <= Bounds.maxY (boundingBox points) * 2)).
Proof.
  cbn zeta. split; [intros ->; split; reflexivity |].
  intros Hne.
  destruct (degenerate p) eqn:D;
    [rewrite generateProfile_degenerate in Hne by exact D; congruence |].
  assert (Hseed : In (initialPoint p) (generateProfile p stepSize)).
  { rewrite generateProfile_regular by exact D. left. reflexivity. }
  destruct (boundingBox_in _ _ Hseed) as ((B1 & B2) & _).
  unfold physicalDepth. simpl Point.x in B1, B2.
  split; [exact B2 |]. split; [exact B1 |].
  intros Hs. unfold mouthDiameter, lastPoint.
  destruct (generateProfile p stepSize) as [| p0 l] eqn:E; [congruence |].
  assert (Hlast : In (last (p0 :: l) p0) (generateProfile p stepSize)).
  { rewrite E. apply last_in. }
  pose proof (profile_in_y_pos p stepSize _ Hs Hlast) as Hy.
  rewrite E in Hlast.
  destruct (boundingBox_in _ _ Hlast) as (_ & B3).
  lra.
Qed.

(** In a run that stays physical the radius does not decrease. *)
Lemma physical_run_y_step (p : JmlcParams.t) (stepSize : R) (k : nat)
    (prev pt : Point.t) :
  JmlcParams.roundOver p <= 100 ->
  0 <= stepSize ->
  nth_error (generateProfile p stepSize) k = Some prev ->
  nth_error (generateProfile p stepSize) (S k) = Some pt ->
  Point.y prev <= Point.y pt.
Proof.
  intros Hr Hs Hprev Hpt.
  destruct (consecutive_points p stepSize k pt Hpt)
    as (prev' & st & Hprev' & Hst & (_ & _ & Hy & _) & -> & _).
  rewrite Hprev in Hprev'. injection Hprev' as <-.
  destruct (never_spiral p stepSize k st Hr Hst) as (_ & Hsp).
  destruct (nextState_physical p stepSize st Hsp) as (_ & Hth & _).
  unfold nextPoint. simpl. rewrite Hth, Hy.
  pose proof (solveTheta_range (State.y st) stepSize
                (targetOf p stepSize st)) as [H0 H1].
  pose proof (sin_gt_0 _ H0 H1) as Hsin. nra.
Qed.

Lemma physical_run_y_chain (p : JmlcParams.t) (stepSize : R) (j d : nat)
    (a b : Point.t) :
  JmlcParams.roundOver p <= 100 ->
  0 <= stepSize ->
  nth_error (generateProfile p stepSize) j = Some a ->
  nth_error (generateProfile p stepSize) (j + d) = Some b ->
  Point.y a <= Point.y b.
Proof.
  intros Hr Hs Ha. revert b. induction d as [| d IH]; intros b Hb.
  - rewrite Nat.add_0_r, Ha in Hb. injection Hb as <-. lra.
  - replace (j + S d)%nat with (S (j + d)) in Hb by lia.
    destruct (consecutive_points p stepSize (j + d) b Hb)
      as (prev & _ & Hprev & _).
    pose proof (physical_run_y_step p stepSize (j + d) prev b Hr Hs Hprev Hb).
    specialize (IH prev Hprev). lra.
Qed.

(** X22. With a rollback limit of at most 100 degrees and a non-negative
    step size the mouth is the widest section of the horn: the mouth
    diameter of the page is the full height [2 maxY] of the bounding box. *)
Theorem mouth_is_widest (p : JmlcParams.t) (stepSize : R) :
  JmlcParams.roundOver p <= 100 ->
  0 <= stepSize ->
  mouthDiameter (generateProfile p stepSize)
  = Bounds.maxY (boundingBox (generateProfile p stepSize)) * 2.
Proof.
  intros Hr Hs.
  destruct (generateProfile p stepSize) as [| p0 l] eqn:E;
    [simpl; unfold mouthDiameter; simpl; lra |].
  unfold mouthDiameter, lastPoint.
  pose proof (last_nth_error p0 l) as Hlast. rewrite <- E in Hlast.
  assert (Hin : In (last (p0 :: l) p0) (p0 :: l)) by apply last_in.
  destruct (boundingBox_in _ _ Hin) as (_ & Hle).
  destruct (fold_growBounds (p0 :: l)
              (Bounds.mk (Point.x p0) (Point.x p0) (Point.y p0)))
    as (_ & _ & _ & _ & M3).
  cbn zeta in M3. fold (boundingBox (p0 :: l)) in M3.
  assert (Hatt : exists q, In q (p0 :: l)
                           /\ Point.y q = Bounds.maxY (boundingBox (p0 :: l))).
  { destruct M3 as [M | M]; [| exact M].
    exists p0. split; [left; reflexivity | symmetry; exact M]. }
  destruct Hatt as (q & Hq & Hmax).
  rewrite <- E in Hq. apply In_nth_error in Hq. destruct Hq as (j & Hj).
  assert (Hjl : (j <= List.length l)%nat).
  { assert (j < List.length (generateProfile p stepSize))%nat
      by (apply nth_error_Some; congruence).
    rewrite E in H. simpl in H. lia. }
  replace (List.length l) with (j + (List.length l - j))%nat in Hlast by lia.
  pose proof (physical_run_y_chain p stepSize j _ q _ Hr Hs Hj Hlast) as Hc.
  rewrite E in Hc. lra.
Qed.

Lemma mouth_is_widest_example :
  (JmlcParams.roundOver gentleParams <= 100 /\ 0 <= 0.5)
  /\ mouthDiameter (generateProfile gentleParams 0.5)
     = Bounds.maxY (boundingBox (generateProfile gentleParams 0.5)) * 2.
Proof.
  assert (Hr : JmlcParams.roundOver gentleParams <= 100) by (simpl; lra).
  assert (Hs : 0 <= 0.5) by lra.
  split; [split; assumption |].
  exact (mouth_is_widest gentleParams 0.5 Hr Hs).
Defined.
